(** * Sequential model of the bounded lock-free queues

    Shallow embedding of

    - [MPMCQueue<T, Capacity>]  (MPMC_Queue/include/mpmc_queue.h), the
      sequenced-slot queue, and
    - [RingBuffer<T, Capacity>] (RingBuffer/include/ring_buffer.h), the
      counter ring buffer,

    executed by one thread at a time.  Every [std::atomic<size_t>] is a
    [Z] in the range of [size_t]; arithmetic on it wraps modulo
    [modulus].  A [compare_exchange] is modelled by its specification:
    it succeeds exactly when the cell holds the expected value (a
    spurious failure of the weak form re-runs the loop body on the same
    state and is not modelled).  The retry loops of the sequenced-slot
    queue take a fuel argument; [None] means the loop was still running
    when the fuel ran out. *)

From Stdlib Require Import ZArith Lia List Bool.
From stdpp Require Import base tactics option list list_numbers.

Local Open Scope Z_scope.

(** ** Machine integers: [size_t] and [std::intptr_t] *)

(** Both types are 64 bits wide (an LP64 target). *)
Definition size_bits : Z := 64.
Definition modulus : Z := Eval cbv in 2 ^ size_bits.
Definition half_modulus : Z := Eval cbv in 2 ^ (size_bits - 1).

(** Result of an arithmetic operation on [size_t]. *)
Definition wrap (x : Z) : Z := x mod modulus.

(** [static_cast<std::intptr_t>(x)] for a [size_t] value [x]. *)
Definition intptr_of (x : Z) : Z :=
  if x <? half_modulus then x else x - modulus.

(** Result of an arithmetic operation on [std::intptr_t], in two's
    complement: an overflowing signed subtraction is taken to wrap, as
    the compiled code does.  No subtraction of the queues overflows
    before a counter has passed [half_modulus]. *)
Definition swrap (z : Z) : Z := (z + half_modulus) mod modulus - half_modulus.

(** The two [static_assert]s on the template parameter [Capacity]. *)
Definition valid_capacity (Capacity : Z) : Prop :=
  0 < Capacity < modulus /\ Z.land Capacity (Capacity - 1) = 0.

(** ** The sequenced-slot queue: [MPMCQueue<T, Capacity>] *)

Module MPMC.
Section Queue.
Context {T : Type}.
(** [T()], the default-constructed element. *)
Variable dflt : T.
(** The state in which [std::move] leaves the object moved from. *)
Variable moved : T -> T.
Variable Capacity : Z.

(** [struct Slot { std::atomic<size_t> sequence; T element; }] *)
Record Slot : Type := { sequence : Z; element : T }.

Record MPMCQueue : Type := {
  tail_ : Z;            (* consumer counter *)
  head_ : Z;            (* producer counter *)
  slots_ : list Slot    (* std::array<Slot, Capacity> *)
}.

Definition mask_ : Z := Capacity - 1.

(** [slots_[i]]; the index is always masked, hence below [Capacity]. *)
Definition slot_at (slots : list Slot) (i : Z) : Slot :=
  default {| sequence := 0; element := dflt |} (slots !! Z.to_nat i).

Definition store_sequence (slots : list Slot) (i v : Z) : list Slot :=
  <[Z.to_nat i := {| sequence := v; element := element (slot_at slots i) |}]> slots.

Definition store_element (slots : list Slot) (i : Z) (x : T) : list Slot :=
  <[Z.to_nat i := {| sequence := sequence (slot_at slots i); element := x |}]> slots.

(** The constructor: both counters zero, then
    [for (i = 0; i < Capacity; ++i) slots_[i].sequence.store(i)] on the
    default-initialised array (its elements are taken to be [T()]). *)
Definition new_queue : MPMCQueue :=
  {| tail_ := 0;
     head_ := 0;
     slots_ := fold_left (fun slots i => store_sequence slots i i)
                 (seqZ 0 Capacity)
                 (replicate (Z.to_nat Capacity) {| sequence := 0; element := dflt |}) |}.

(** [intptr_t diff = (intptr_t)sequence - (intptr_t)head] *)
Definition enqueue_diff (seq head : Z) : Z :=
  swrap (intptr_of seq - intptr_of head).

(** [intptr_t diff = (intptr_t)sequence - (intptr_t)tail - 1] *)
Definition dequeue_diff (seq tail : Z) : Z :=
  swrap (swrap (intptr_of seq - intptr_of tail) - 1).

(** The [while (true)] loop of [enqueue]; [head] is the local copy of
    the producer counter. *)
Fixpoint enqueue_loop (fuel : nat) (head : Z) (q : MPMCQueue) (value : T)
  : option (bool * MPMCQueue) :=
  match fuel with
  | O => None
  | S fuel' =>
      let i := Z.land head mask_ in
      let diff := enqueue_diff (sequence (slot_at (slots_ q) i)) head in
      if negb (diff =? 0) then
        if diff <? 0 then Some (false, q)
        else enqueue_loop fuel' (head_ q) q value
      else if negb (head_ q =? head) then
        (* compare_exchange_weak failed and reloaded [head] *)
        enqueue_loop fuel' (head_ q) q value
      else
        let slots1 := store_element (slots_ q) i value in
        let slots2 := store_sequence slots1 i (wrap (head + 1)) in
        Some (true, {| tail_ := tail_ q; head_ := wrap (head + 1); slots_ := slots2 |})
  end.

Definition enqueue (fuel : nat) (q : MPMCQueue) (value : T)
  : option (bool * MPMCQueue) :=
  enqueue_loop fuel (head_ q) q value.

(** The [while (true)] loop of [dequeue(T& result)]; the triple is the
    returned flag, the final content of [result] and the queue. *)
Fixpoint dequeue_loop (fuel : nat) (tail : Z) (q : MPMCQueue) (result : T)
  : option (bool * T * MPMCQueue) :=
  match fuel with
  | O => None
  | S fuel' =>
      let i := Z.land tail mask_ in
      let diff := dequeue_diff (sequence (slot_at (slots_ q) i)) tail in
      if negb (diff =? 0) then
        if diff <? 0 then Some (false, result, q)
        else dequeue_loop fuel' (tail_ q) q result
      else if negb (tail_ q =? tail) then
        dequeue_loop fuel' (tail_ q) q result
      else
        let x := element (slot_at (slots_ q) i) in
        let slots1 := store_element (slots_ q) i (moved x) in
        let slots2 := store_sequence slots1 i (wrap (tail + Capacity)) in
        Some (true, x, {| tail_ := wrap (tail + 1); head_ := head_ q; slots_ := slots2 |})
  end.

Definition dequeue (fuel : nat) (q : MPMCQueue) (result : T)
  : option (bool * T * MPMCQueue) :=
  dequeue_loop fuel (tail_ q) q result.

(** [std::optional<T> dequeue()], written with the reference form. *)
Definition dequeue_opt (fuel : nat) (q : MPMCQueue)
  : option (option T * MPMCQueue) :=
  match dequeue fuel q dflt with
  | None => None
  | Some (true, result, q') => Some (Some result, q')
  | Some (false, _, q') => Some (None, q')
  end.

Definition empty (q : MPMCQueue) : bool := head_ q =? tail_ q.

Definition capacity (q : MPMCQueue) : Z := Capacity.

Definition size (q : MPMCQueue) : Z :=
  if head_ q >=? tail_ q then wrap (head_ q - tail_ q) else 0.

End Queue.
End MPMC.

(** ** The counter ring buffer: [RingBuffer<T, Capacity>] *)

Module Ring.
Section Buffer.
Context {T : Type}.
(** [T()], the default-constructed element. *)
Variable dflt : T.
(** The state in which [std::move] leaves the object moved from. *)
Variable moved : T -> T.
Variable Capacity : Z.

Record RingBuffer : Type := {
  head_ : Z;          (* producer counter *)
  tail_ : Z;          (* consumer counter *)
  buffer_ : list T    (* std::array<T, Capacity> *)
}.

Definition mask_ : Z := Capacity - 1.

(** [buffer_[i]]; the index is always masked, hence below [Capacity]. *)
Definition buffer_at (buffer : list T) (i : Z) : T :=
  default dflt (buffer !! Z.to_nat i).

(** The constructor: both counters zero and a [T()] in every cell. *)
Definition new_buffer : RingBuffer :=
  {| head_ := 0; tail_ := 0; buffer_ := replicate (Z.to_nat Capacity) dflt |}.

(** [bool try_enqueue(const T& item)] *)
Definition try_enqueue (q : RingBuffer) (item : T) : bool * RingBuffer :=
  let head := head_ q in
  let next_head := wrap (head + 1) in
  let tail := tail_ q in
  if wrap (next_head - tail) >? Capacity then (false, q)
  else
    (true, {| head_ := next_head;
              tail_ := tail_ q;
              buffer_ := <[Z.to_nat (Z.land head mask_) := item]> (buffer_ q) |}).

(** [bool try_enqueue(T&& item)]: the same steps; what is moved from is
    the caller's object. *)
Definition try_enqueue_move (q : RingBuffer) (item : T) : bool * RingBuffer :=
  let head := head_ q in
  let next_head := wrap (head + 1) in
  let tail := tail_ q in
  if wrap (next_head - tail) >? Capacity then (false, q)
  else
    (true, {| head_ := next_head;
              tail_ := tail_ q;
              buffer_ := <[Z.to_nat (Z.land head mask_) := item]> (buffer_ q) |}).

(** [cell.compare_exchange_strong(expected, desired)]: the flag and
    the new content of the cell. *)
Definition compare_exchange_strong (cell expected desired : Z) : bool * Z :=
  if cell =? expected then (true, desired) else (false, cell).

(** [bool try_dequeue(T& result)]; the triple is the returned flag,
    the final content of [result] and the buffer. *)
Definition try_dequeue (q : RingBuffer) (result : T) : bool * T * RingBuffer :=
  let tail := tail_ q in
  let head := head_ q in
  if head <=? tail then (false, result, q)
  else
    let i := Z.land tail mask_ in
    let x := buffer_at (buffer_ q) i in
    let buffer1 := <[Z.to_nat i := moved x]> (buffer_ q) in
    let '(ok, tail1) := compare_exchange_strong (tail_ q) tail (wrap (tail + 1)) in
    (ok, x, {| head_ := head_ q; tail_ := tail1; buffer_ := buffer1 |}).

(** [std::optional<T> try_dequeue()] *)
Definition try_dequeue_opt (q : RingBuffer) : option T * RingBuffer :=
  let tail := tail_ q in
  let head := head_ q in
  if head <=? tail then (None, q)
  else
    let i := Z.land tail mask_ in
    let x := buffer_at (buffer_ q) i in
    let buffer1 := <[Z.to_nat i := moved x]> (buffer_ q) in
    let '(ok, tail1) := compare_exchange_strong (tail_ q) tail (wrap (tail + 1)) in
    (if ok then Some x else None,
     {| head_ := head_ q; tail_ := tail1; buffer_ := buffer1 |}).

Definition size (q : RingBuffer) : Z := wrap (head_ q - tail_ q).

Definition empty (q : RingBuffer) : bool := size q =? 0.

Definition full (q : RingBuffer) : bool := size q >=? Capacity.

Definition capacity (q : RingBuffer) : Z := Capacity.

(** The loop of the destructor,
    [while (head != tail) { buffer_[head & mask_].~T(); head++; }]:
    the cells whose element is destroyed by the first [fuel]
    iterations, in order, and whether the loop has been left. *)
Fixpoint destructor_loop (fuel : nat) (head tail : Z) : list Z * bool :=
  match fuel with
  | O => ([], head =? tail)
  | S fuel' =>
      if negb (head =? tail) then
        let '(cells, finished) := destructor_loop fuel' (wrap (head + 1)) tail in
        (Z.land head mask_ :: cells, finished)
      else ([], true)
  end.

Definition destructor (fuel : nat) (q : RingBuffer) : list Z * bool :=
  destructor_loop fuel (head_ q) (tail_ q).

End Buffer.
End Ring.

(** ** Call sequences

    The straight-line drivers of the unit tests (fill, drain, fill and
    drain again), over any pair of an enqueue and a dequeue operation.
    [None] is an operation that did not return. *)

Section Driver.
Context {Q T : Type}.
Variable enq : Q -> T -> option (bool * Q).
Variable deq : Q -> option (option T * Q).

(** One enqueue per value, in order; the flags returned. *)
Fixpoint enqueue_all (vs : list T) (q : Q) : option (list bool * Q) :=
  match vs with
  | [] => Some ([], q)
  | v :: vs' =>
      match enq q v with
      | None => None
      | Some (b, q1) =>
          match enqueue_all vs' q1 with
          | None => None
          | Some (bs, q2) => Some (b :: bs, q2)
          end
      end
  end.

(** [n] dequeues; the results returned. *)
Fixpoint dequeue_n (n : nat) (q : Q) : option (list (option T) * Q) :=
  match n with
  | O => Some ([], q)
  | S n' =>
      match deq q with
      | None => None
      | Some (r, q1) =>
          match dequeue_n n' q1 with
          | None => None
          | Some (rs, q2) => Some (r :: rs, q2)
          end
      end
  end.

(** Enqueue the values of one cycle, then dequeue as many times. *)
Definition fill_drain (vs : list T) (q : Q)
  : option (list bool * list (option T) * Q) :=
  match enqueue_all vs q with
  | None => None
  | Some (bs, q1) =>
      match dequeue_n (length vs) q1 with
      | None => None
      | Some (rs, q2) => Some (bs, rs, q2)
      end
  end.

Fixpoint fill_drain_cycles (cycles : list (list T)) (q : Q)
  : option (list (list bool * list (option T)) * Q) :=
  match cycles with
  | [] => Some ([], q)
  | vs :: cycles' =>
      match fill_drain vs q with
      | None => None
      | Some (bs, rs, q1) =>
          match fill_drain_cycles cycles' q1 with
          | None => None
          | Some (out, q2) => Some ((bs, rs) :: out, q2)
          end
      end
  end.
End Driver.

(** The number of values of a list of cycles. *)
Definition total_length {T} (cycles : list (list T)) : Z :=
  Z.of_nat (length (concat cycles)).

(** The operations of the two queues in the shape the drivers take. *)
Definition mpmc_enq {T} (dflt : T) (Capacity : Z) (fuel : nat)
  : MPMC.MPMCQueue -> T -> option (bool * MPMC.MPMCQueue) :=
  MPMC.enqueue dflt Capacity fuel.

Definition mpmc_deq {T} (dflt : T) (moved : T -> T) (Capacity : Z) (fuel : nat)
  : MPMC.MPMCQueue -> option (option T * MPMC.MPMCQueue) :=
  MPMC.dequeue_opt dflt moved Capacity fuel.

Definition ring_enq {T} (Capacity : Z)
  : Ring.RingBuffer -> T -> option (bool * Ring.RingBuffer) :=
  fun q v => Some (Ring.try_enqueue Capacity q v).

Definition ring_deq {T} (dflt : T) (moved : T -> T) (Capacity : Z)
  : Ring.RingBuffer -> option (option T * Ring.RingBuffer) :=
  fun q => Some (Ring.try_dequeue_opt dflt moved Capacity q).

(** Conditions on the number of successful enqueues: none, and that
    the producer counter has not wrapped. *)
Definition always (E : Z) : Prop := True.
Definition unwrapped (E : Z) : Prop := E < modulus.

(** Two arrays of one length that agree outside cell [i]. *)
Definition only_cell_changed {A} (i : Z) (old new : list A) : Prop :=
  length new = length old /\
  forall j : nat, j <> Z.to_nat i -> new !! j = old !! j.

(** ** Reachable states and what they represent *)

Section Abstraction.
Context {T : Type}.
Variable dflt : T.
Variable moved : T -> T.
Variable Capacity : Z.

(** States of the sequenced-slot queue produced by a finite sequence
    of calls on a newly constructed queue; the two numbers count the
    calls to [enqueue] and to [dequeue] that returned [true] (or a
    value). *)
Inductive mpmc_reach : Z -> Z -> MPMC.MPMCQueue -> Prop :=
| mreach_new :
    mpmc_reach 0 0 (MPMC.new_queue dflt Capacity)
| mreach_enqueue E D q fuel v b q' :
    mpmc_reach E D q ->
    MPMC.enqueue dflt Capacity fuel q v = Some (b, q') ->
    mpmc_reach (if b then E + 1 else E) D q'
| mreach_dequeue E D q fuel r b r' q' :
    mpmc_reach E D q ->
    MPMC.dequeue dflt moved Capacity fuel q r = Some (b, r', q') ->
    mpmc_reach E (if b then D + 1 else D) q'
| mreach_dequeue_opt E D q fuel o q' :
    mpmc_reach E D q ->
    MPMC.dequeue_opt dflt moved Capacity fuel q = Some (o, q') ->
    mpmc_reach E (match o with Some _ => D + 1 | None => D end) q'.

Definition mpmc_reachable (q : MPMC.MPMCQueue) : Prop :=
  exists E D, mpmc_reach E D q.

(** The same for the counter ring buffer. *)
Inductive ring_reach : Z -> Z -> Ring.RingBuffer -> Prop :=
| rreach_new :
    ring_reach 0 0 (Ring.new_buffer dflt Capacity)
| rreach_enqueue E D q v b q' :
    ring_reach E D q ->
    Ring.try_enqueue Capacity q v = (b, q') ->
    ring_reach (if b then E + 1 else E) D q'
| rreach_enqueue_move E D q v b q' :
    ring_reach E D q ->
    Ring.try_enqueue_move Capacity q v = (b, q') ->
    ring_reach (if b then E + 1 else E) D q'
| rreach_dequeue E D q r b r' q' :
    ring_reach E D q ->
    Ring.try_dequeue dflt moved Capacity q r = (b, r', q') ->
    ring_reach E (if b then D + 1 else D) q'
| rreach_dequeue_opt E D q o q' :
    ring_reach E D q ->
    Ring.try_dequeue_opt dflt moved Capacity q = (o, q') ->
    ring_reach E (match o with Some _ => D + 1 | None => D end) q'.

Definition ring_reachable (q : Ring.RingBuffer) : Prop :=
  exists E D, ring_reach E D q.

(** [mpmc_rep E D xs q]: after [E] enqueues and [D] dequeues the queue
    [q] holds the elements [xs], oldest first.  Position [j] of the
    unbounded index space lives in slot [j mod Capacity]. *)
Record mpmc_rep (E D : Z) (xs : list T) (q : MPMC.MPMCQueue) : Prop := {
  mrep_nonneg : 0 <= D;
  mrep_length : E - D = Z.of_nat (length xs);
  mrep_bound : E - D <= Capacity;
  mrep_head : MPMC.head_ q = wrap E;
  mrep_tail : MPMC.tail_ q = wrap D;
  mrep_slots : length (MPMC.slots_ q) = Z.to_nat Capacity;
  mrep_filled : forall j, D <= j < E ->
    MPMC.sequence (MPMC.slot_at dflt (MPMC.slots_ q) (j mod Capacity)) = wrap (j + 1) /\
    xs !! Z.to_nat (j - D) =
      Some (MPMC.element (MPMC.slot_at dflt (MPMC.slots_ q) (j mod Capacity)));
  mrep_free : forall j, E <= j < D + Capacity ->
    MPMC.sequence (MPMC.slot_at dflt (MPMC.slots_ q) (j mod Capacity)) = wrap j
}.

Record ring_rep (E D : Z) (xs : list T) (q : Ring.RingBuffer) : Prop := {
  rrep_nonneg : 0 <= D;
  rrep_length : E - D = Z.of_nat (length xs);
  rrep_bound : E - D <= Capacity;
  rrep_head : Ring.head_ q = wrap E;
  rrep_tail : Ring.tail_ q = wrap D;
  rrep_buffer : length (Ring.buffer_ q) = Z.to_nat Capacity;
  rrep_cells : forall j, D <= j < E ->
    xs !! Z.to_nat (j - D) =
      Some (Ring.buffer_at dflt (Ring.buffer_ q) (j mod Capacity))
}.

(** The state a successful [enqueue] leaves: slot [head & mask_] holds
    the value and the sequence number [head + 1]. *)
Definition mpmc_after_enqueue (q : MPMC.MPMCQueue) (v : T) : MPMC.MPMCQueue :=
  {| MPMC.tail_ := MPMC.tail_ q;
     MPMC.head_ := wrap (MPMC.head_ q + 1);
     MPMC.slots_ :=
       <[Z.to_nat (Z.land (MPMC.head_ q) (Capacity - 1)) :=
           {| MPMC.sequence := wrap (MPMC.head_ q + 1); MPMC.element := v |}]>
         (MPMC.slots_ q) |}.

(** The state a successful [dequeue] leaves: slot [tail & mask_] holds
    the moved-from element and the sequence number [tail + Capacity]. *)
Definition mpmc_after_dequeue (q : MPMC.MPMCQueue) : MPMC.MPMCQueue :=
  let i := Z.land (MPMC.tail_ q) (Capacity - 1) in
  {| MPMC.tail_ := wrap (MPMC.tail_ q + 1);
     MPMC.head_ := MPMC.head_ q;
     MPMC.slots_ :=
       <[Z.to_nat i :=
           {| MPMC.sequence := wrap (MPMC.tail_ q + Capacity);
              MPMC.element := moved (MPMC.element (MPMC.slot_at dflt (MPMC.slots_ q) i)) |}]>
         (MPMC.slots_ q) |}.
End Abstraction.


(** ** Arbitrary call sequences and the bounded FIFO they should match *)

Inductive call (T : Type) : Type :=
| Enqueue (v : T)
| Dequeue.
Arguments Enqueue {T} v.
Arguments Dequeue {T}.

Inductive answer (T : Type) : Type :=
| Enqueued (ok : bool)
| Dequeued (r : option T).
Arguments Enqueued {T} ok.
Arguments Dequeued {T} r.

Section Calls.
Context {Q T : Type}.
Variable enq : Q -> T -> option (bool * Q).
Variable deq : Q -> option (option T * Q).

(** The calls of [cs] one after another, with what each returned. *)
Fixpoint run_calls (cs : list (call T)) (q : Q) : option (list (answer T) * Q) :=
  match cs with
  | [] => Some ([], q)
  | Enqueue v :: cs' =>
      match enq q v with
      | None => None
      | Some (b, q1) =>
          match run_calls cs' q1 with
          | None => None
          | Some (out, q2) => Some (Enqueued b :: out, q2)
          end
      end
  | Dequeue :: cs' =>
      match deq q with
      | None => None
      | Some (r, q1) =>
          match run_calls cs' q1 with
          | None => None
          | Some (out, q2) => Some (Dequeued r :: out, q2)
          end
      end
  end.
End Calls.

(** Modelled from the spec: the bounded first-in first-out container
    both queues implement, as a list with the oldest element first.
    An enqueue on [Capacity] elements is refused, a dequeue on none
    returns nothing. *)
Definition fifo_spec_step {T} (Capacity : Z) (xs : list T) (c : call T)
  : answer T * list T :=
  match c with
  | Enqueue v =>
      if Z.of_nat (length xs) <? Capacity then (Enqueued true, xs ++ [v])
      else (Enqueued false, xs)
  | Dequeue =>
      match xs with
      | [] => (Dequeued None, [])
      | x :: xs' => (Dequeued (Some x), xs')
      end
  end.

Fixpoint fifo_spec_run {T} (Capacity : Z) (cs : list (call T)) (xs : list T)
  : list (answer T) * list T :=
  match cs with
  | [] => ([], xs)
  | c :: cs' =>
      let '(a, xs1) := fifo_spec_step Capacity xs c in
      let '(out, xs2) := fifo_spec_run Capacity cs' xs1 in
      (a :: out, xs2)
  end.

(** The number of [Enqueue] calls of a sequence. *)
Fixpoint enqueue_calls {T} (cs : list (call T)) : Z :=
  match cs with
  | [] => 0
  | Enqueue _ :: cs' => 1 + enqueue_calls cs'
  | Dequeue :: cs' => enqueue_calls cs'
  end.

(** ** Loops of the callers *)

(** [while (queue.dequeue(temp)) {}], the loop that clears a queue
    (MPMC_Queue/src/main.cpp, RingBuffer/benchmarks/ring_buffer_bench.cpp),
    over the reference form of dequeue: the final content of [temp]
    and the queue.  [None] when the fuel runs out or a call does not
    return. *)
Fixpoint clear_loop {Q T : Type} (deq_ref : Q -> T -> option (bool * T * Q))
    (fuel : nat) (q : Q) (temp : T) : option (T * Q) :=
  match fuel with
  | O => None
  | S fuel' =>
      match deq_ref q temp with
      | None => None
      | Some (true, temp', q') => clear_loop deq_ref fuel' q' temp'
      | Some (false, temp', q') => Some (temp', q')
      end
  end.

Definition mpmc_deq_ref {T} (dflt : T) (moved : T -> T) (Capacity : Z) (fuel : nat)
  : MPMC.MPMCQueue -> T -> option (bool * T * MPMC.MPMCQueue) :=
  MPMC.dequeue dflt moved Capacity fuel.

Definition ring_deq_ref {T} (dflt : T) (moved : T -> T) (Capacity : Z)
  : Ring.RingBuffer -> T -> option (bool * T * Ring.RingBuffer) :=
  fun q r => Some (Ring.try_dequeue dflt moved Capacity q r).

(** [static_cast<int>(i)] for a [size_t] value [i], [int] being 32 bits
    wide. *)
Definition static_cast_int (i : Z) : Z :=
  let m := i mod 2 ^ 32 in
  if m <? 2 ^ 31 then m else m - 2 ^ 32.

(** The two timed loops of [test_single_threaded]
    (RingBuffer/src/main.cpp) on a [RingBuffer<int, Capacity>]:
    [for (i = 0; i < num_operations && !buffer.full(); ++i)
       buffer.try_enqueue(static_cast<int>(i));]
    with [steps] the iterations left before [i] reaches
    [num_operations], *)
Fixpoint enqueue_phase (Capacity : Z) (steps : nat) (i : Z) (buffer : Ring.RingBuffer)
  : Ring.RingBuffer :=
  match steps with
  | O => buffer
  | S steps' =>
      if negb (Ring.full Capacity buffer) then
        enqueue_phase Capacity steps' (wrap (i + 1))
          (snd (Ring.try_enqueue Capacity buffer (static_cast_int i)))
      else buffer
  end.

(** and [for (i = 0; i < num_operations && buffer.try_dequeue(value); ++i) {}]. *)
Fixpoint dequeue_phase (Capacity : Z) (steps : nat) (buffer : Ring.RingBuffer) (value : Z)
  : Z * Ring.RingBuffer :=
  match steps with
  | O => (value, buffer)
  | S steps' =>
      let '(ok, value', buffer') := Ring.try_dequeue 0 (fun x => x) Capacity buffer value in
      if ok then dequeue_phase Capacity steps' buffer' value'
      else (value', buffer')
  end.

Definition test_single_threaded (Capacity : Z) (num_operations : nat) (value : Z)
  : Z * Ring.RingBuffer :=
  dequeue_phase Capacity num_operations
    (enqueue_phase Capacity num_operations 0 (Ring.new_buffer 0 Capacity)) value.

(** ** The move-only element type of the tests *)

Module MoveOnly.



End MoveOnly.


(** * Proofs *)

(** ** Facts on machine integers *)

Lemma modulus_eq : modulus = 2 ^ 64.
Proof. reflexivity. Qed.

Lemma modulus_half : modulus = 2 * half_modulus.
Proof. reflexivity. Qed.

Lemma half_modulus_gt1 : 1 < half_modulus.
Proof. reflexivity. Qed.

Lemma wrap_range x : 0 <= wrap x < modulus.
Proof. unfold wrap. apply Z.mod_pos_bound. reflexivity. Qed.

Lemma wrap_small x : 0 <= x < modulus -> wrap x = x.
Proof. intros. unfold wrap. apply Z.mod_small. assumption. Qed.

Lemma wrap_wrap x : wrap (wrap x) = wrap x.
Proof. unfold wrap. apply Z.mod_mod. discriminate. Qed.

Lemma wrap_add_l x y : wrap (wrap x + y) = wrap (x + y).
Proof. unfold wrap. apply Zplus_mod_idemp_l. Qed.

Lemma wrap_sub_mod x y : wrap (wrap x - wrap y) = wrap (x - y).
Proof. unfold wrap. symmetry. apply Zminus_mod. Qed.

(** A signed result that is congruent to a small number is that number. *)
Lemma swrap_congr z d k :
  z = d + k * modulus -> - half_modulus <= d < half_modulus -> swrap z = d.
Proof.
  intros -> Hd. unfold swrap.
  replace (d + k * modulus + half_modulus) with (d + half_modulus + k * modulus) by ring.
  rewrite Z.mod_add by discriminate.
  rewrite Z.mod_small; [ring|]. rewrite modulus_half. lia.
Qed.

Lemma intptr_of_congr x : exists k, intptr_of x = x + k * modulus.
Proof.
  unfold intptr_of. destruct (x <? half_modulus).
  - exists 0. ring.
  - exists (-1). ring.
Qed.

(** The signed difference [static_cast<intptr_t>(a) - static_cast<intptr_t>(b)]
    of two wrapped counters whose unbounded values differ by a small [d]. *)
Lemma signed_diff_small b d :
  - half_modulus <= d < half_modulus ->
  swrap (intptr_of (wrap (b + d)) - intptr_of (wrap b)) = d.
Proof.
  intros Hd.
  destruct (intptr_of_congr (wrap (b + d))) as [k1 ->].
  destruct (intptr_of_congr (wrap b)) as [k2 ->].
  unfold wrap.
  pose proof (Z.div_mod (b + d) modulus ltac:(discriminate)) as E1.
  pose proof (Z.div_mod b modulus ltac:(discriminate)) as E2.
  apply swrap_congr with (k := k1 - k2 - (b + d) / modulus + b / modulus); [|assumption].
  lia.
Qed.

Lemma signed_diff_wrap a b d :
  a - b = d -> - half_modulus <= d < half_modulus ->
  swrap (intptr_of (wrap a) - intptr_of (wrap b)) = d.
Proof.
  intros E Hd. replace a with (b + d) by lia. apply signed_diff_small, Hd.
Qed.

(** *** Powers of two *)

Lemma land_pred_pow2 c :
  0 < c -> Z.land c (c - 1) = 0 -> c = 2 ^ Z.log2 c.
Proof.
  intros Hpos Hland.
  destruct (Z.log2_spec c Hpos) as [Hlo Hhi].
  destruct (Z.eq_dec c (2 ^ Z.log2 c)) as [|Hne]; [assumption|exfalso].
  assert (Hlog : Z.log2 (c - 1) = Z.log2 c).
  { apply Z.log2_unique; [apply Z.log2_nonneg|]. lia. }
  assert (Hb1 : Z.testbit c (Z.log2 c) = true) by (apply Z.bit_log2; lia).
  assert (Hb2 : Z.testbit (c - 1) (Z.log2 c) = true).
  { rewrite <- Hlog. apply Z.bit_log2.
    assert (0 < 2 ^ Z.log2 c) by (apply Z.pow_pos_nonneg; [lia|apply Z.log2_nonneg]).
    lia. }
  assert (Hb : Z.testbit (Z.land c (c - 1)) (Z.log2 c) = true).
  { rewrite Z.land_spec, Hb1, Hb2. reflexivity. }
  rewrite Hland, Z.bits_0 in Hb. discriminate.
Qed.

Section CapacityFacts.
Variable Capacity : Z.
Hypothesis Hcap : valid_capacity Capacity.

Lemma capacity_pos : 0 < Capacity.
Proof. destruct Hcap as [[? ?] ?]. assumption. Qed.

Lemma capacity_pow2 : exists k, 0 <= k < 64 /\ Capacity = 2 ^ k.
Proof.
  destruct Hcap as [[Hpos Hlt] Hland].
  exists (Z.log2 Capacity). split; [|apply land_pred_pow2; assumption].
  split; [apply Z.log2_nonneg|].
  apply Z.log2_lt_pow2; [assumption|]. rewrite <- modulus_eq. assumption.
Qed.

(** [Capacity] divides the range of [size_t]. *)
Lemma capacity_divides : exists m, 2 <= m /\ modulus = m * Capacity.
Proof.
  destruct capacity_pow2 as (k & Hk & ->).
  exists (2 ^ (64 - k)). split.
  - change 2 with (2 ^ 1) at 1. apply Z.pow_le_mono_r; lia.
  - rewrite modulus_eq, <- Z.pow_add_r by lia. f_equal. lia.
Qed.

Lemma capacity_le_half : Capacity <= half_modulus.
Proof.
  destruct capacity_divides as (m & Hm & E). pose proof capacity_pos.
  rewrite modulus_half in E. nia.
Qed.

(** [x & mask_] is [x mod Capacity]. *)
Lemma land_mask x : Z.land x (Capacity - 1) = x mod Capacity.
Proof.
  destruct capacity_pow2 as (k & Hk & ->).
  rewrite <- Z.land_ones by lia. f_equal. rewrite Z.ones_equiv. lia.
Qed.

Lemma land_mask_range x : 0 <= Z.land x (Capacity - 1) < Capacity.
Proof. rewrite land_mask. apply Z.mod_pos_bound, capacity_pos. Qed.

(** Masking a wrapped counter gives the residue of the unbounded one. *)
Lemma land_mask_wrap x : Z.land (wrap x) (Capacity - 1) = x mod Capacity.
Proof.
  rewrite land_mask. unfold wrap.
  destruct capacity_divides as (m & Hm & E). pose proof capacity_pos.
  apply Z.mod_mod_divide. exists m. assumption.
Qed.

(** Two positions of one window of [Capacity] consecutive indices fall
    on the same slot only when they are equal. *)
Lemma window_slot_inj d i j :
  d <= i < d + Capacity -> d <= j < d + Capacity ->
  i mod Capacity = j mod Capacity -> i = j.
Proof.
  intros Hi Hj E. pose proof capacity_pos.
  pose proof (Z.div_mod i Capacity ltac:(lia)).
  pose proof (Z.div_mod j Capacity ltac:(lia)).
  rewrite E in *.
  assert (i / Capacity = j / Capacity) as Hq by nia.
  rewrite Hq in *. lia.
Qed.
End CapacityFacts.

(** ** The sequenced-slot queue *)

Section MPMCFacts.
Context {T : Type}.
Variable dflt : T.
Variable moved : T -> T.
Variable Capacity : Z.

Abbreviation Slot := (@MPMC.Slot T).
Abbreviation Queue := (@MPMC.MPMCQueue T).
Abbreviation slot_at := (MPMC.slot_at dflt).
Abbreviation enqueue := (MPMC.enqueue dflt Capacity).
Abbreviation dequeue := (MPMC.dequeue dflt moved Capacity).
Abbreviation dequeue_opt := (MPMC.dequeue_opt dflt moved Capacity).
Abbreviation new_queue := (MPMC.new_queue dflt Capacity).
Abbreviation after_enqueue := (mpmc_after_enqueue Capacity).
Abbreviation after_dequeue := (mpmc_after_dequeue dflt moved Capacity).

(** *** Slots *)

Lemma mpmc_store_both (slots : list Slot) i x s :
  MPMC.store_sequence dflt (MPMC.store_element dflt slots i x) i s =
  <[Z.to_nat i := {| MPMC.sequence := s; MPMC.element := x |}]> slots.
Proof.
  unfold MPMC.store_sequence, MPMC.store_element, MPMC.slot_at.
  destruct (decide (Z.to_nat i < length slots)%nat) as [Hlt|Hge].
  - rewrite list_lookup_insert_eq by assumption. simpl.
    apply list_insert_insert_eq.
  - rewrite !list_insert_ge by (rewrite ?length_insert; lia). reflexivity.
Qed.

Lemma mpmc_slot_at_insert_eq (slots : list Slot) i s :
  0 <= i < Z.of_nat (length slots) ->
  slot_at (<[Z.to_nat i := s]> slots) i = s.
Proof.
  intros Hi. unfold MPMC.slot_at.
  rewrite list_lookup_insert_eq by lia. reflexivity.
Qed.

Lemma mpmc_slot_at_insert_ne (slots : list Slot) i j s :
  0 <= i -> 0 <= j -> i <> j ->
  slot_at (<[Z.to_nat i := s]> slots) j = slot_at slots j.
Proof.
  intros Hi Hj Hne. unfold MPMC.slot_at.
  rewrite list_lookup_insert_ne by lia. reflexivity.
Qed.

(** *** The constructor *)

Lemma mpmc_init_loop (n : nat) (slots : list Slot) :
  (n <= length slots)%nat ->
  let slots' := fold_left (fun sl i => MPMC.store_sequence dflt sl i i)
                  (seqZ 0 (Z.of_nat n)) slots in
  length slots' = length slots /\
  forall i : nat,
    slots' !! i =
      if decide (i < n)%nat
      then (fun s => {| MPMC.sequence := Z.of_nat i; MPMC.element := MPMC.element s |})
             <$> slots !! i
      else slots !! i.
Proof.
  induction n as [|n IH]; intros Hn; simpl.
  - split; [reflexivity|]. intros i. destruct (decide (i < 0)%nat); [lia|reflexivity].
  - replace (Z.of_nat (S n)) with (Z.of_nat n + 1) by lia.
    rewrite seqZ_app by lia. rewrite fold_left_app.
    destruct (IH ltac:(lia)) as [Hlen Hlk]. clear IH.
    set (mid := fold_left _ (seqZ 0 (Z.of_nat n)) slots) in *.
    change (seqZ (0 + Z.of_nat n) 1) with [Z.of_nat n]. cbn [fold_left].
    unfold MPMC.store_sequence, MPMC.slot_at. rewrite !Nat2Z.id.
    split; [rewrite length_insert; assumption|].
    intros i. destruct (decide (i = n)) as [->|Hne].
    + rewrite list_lookup_insert_eq by lia.
      rewrite Hlk. destruct (decide (n < n)%nat); [lia|].
      destruct (decide (n < S n)%nat); [|lia].
      destruct (lookup_lt_is_Some_2 slots n ltac:(lia)) as [s Hs].
      rewrite Hs. reflexivity.
    + rewrite list_lookup_insert_ne by lia. rewrite Hlk.
      destruct (decide (i < n)%nat), (decide (i < S n)%nat); try lia; reflexivity.
Qed.

Lemma mpmc_new_length :
  0 <= Capacity -> length (MPMC.slots_ new_queue) = Z.to_nat Capacity.
Proof.
  intros Hc. unfold MPMC.new_queue. simpl.
  rewrite <- (Z2Nat.id Capacity) at 1 by assumption.
  pose proof (mpmc_init_loop (Z.to_nat Capacity)
                (replicate (Z.to_nat Capacity) {| MPMC.sequence := 0; MPMC.element := dflt |})) as H.
  rewrite length_replicate in H. destruct (H ltac:(lia)) as [-> _].
  reflexivity.
Qed.

(** At construction slot [i] carries the sequence number [i]. *)
Lemma mpmc_new_slot i :
  0 <= i < Capacity ->
  slot_at (MPMC.slots_ new_queue) i = {| MPMC.sequence := i; MPMC.element := dflt |}.
Proof.
  intros Hi. unfold MPMC.new_queue, MPMC.slot_at. simpl.
  rewrite <- (Z2Nat.id Capacity) at 1 by lia.
  pose proof (mpmc_init_loop (Z.to_nat Capacity)
                (replicate (Z.to_nat Capacity) {| MPMC.sequence := 0; MPMC.element := dflt |})) as H.
  rewrite length_replicate in H. destruct (H ltac:(lia)) as [_ ->].
  destruct (decide (Z.to_nat i < Z.to_nat Capacity)%nat); [|lia].
  rewrite lookup_replicate_2 by lia. simpl. rewrite Z2Nat.id by lia. reflexivity.
Qed.


(** *** One call, on any state *)

Lemma mpmc_enqueue_step fuel (q : Queue) v :
  enqueue (S fuel) q v =
    let diff := MPMC.enqueue_diff
                  (MPMC.sequence (slot_at (MPMC.slots_ q)
                                    (Z.land (MPMC.head_ q) (Capacity - 1))))
                  (MPMC.head_ q) in
    if diff =? 0 then Some (true, after_enqueue q v)
    else if diff <? 0 then Some (false, q)
    else enqueue fuel q v.
Proof.
  unfold MPMC.enqueue. cbn [MPMC.enqueue_loop]. unfold MPMC.mask_.
  cbv zeta. destruct (_ =? 0); cbn [negb]; [|reflexivity].
  rewrite Z.eqb_refl. cbn [negb]. rewrite mpmc_store_both. reflexivity.
Qed.

Lemma mpmc_dequeue_step fuel (q : Queue) r :
  dequeue (S fuel) q r =
    let i := Z.land (MPMC.tail_ q) (Capacity - 1) in
    let diff := MPMC.dequeue_diff (MPMC.sequence (slot_at (MPMC.slots_ q) i))
                  (MPMC.tail_ q) in
    if diff =? 0
    then Some (true, MPMC.element (slot_at (MPMC.slots_ q) i), after_dequeue q)
    else if diff <? 0 then Some (false, r, q)
    else dequeue fuel q r.
Proof.
  unfold MPMC.dequeue. cbn [MPMC.dequeue_loop]. unfold MPMC.mask_.
  cbv zeta. destruct (_ =? 0); cbn [negb]; [|reflexivity].
  rewrite Z.eqb_refl. cbn [negb]. rewrite mpmc_store_both. reflexivity.
Qed.

(** A call that returns [true] has run the claiming branch on the
    state it was called on; one that returns [false] changed nothing. *)
Lemma mpmc_enqueue_returns fuel (q : Queue) v b q' :
  enqueue fuel q v = Some (b, q') ->
  (b = true /\ q' = after_enqueue q v) \/ (b = false /\ q' = q).
Proof.
  induction fuel as [|fuel IH]; [discriminate|].
  rewrite mpmc_enqueue_step. cbv zeta.
  destruct (_ =? 0); [intros [= <- <-]; left; split; reflexivity|].
  destruct (_ <? 0); [intros [= <- <-]; right; split; reflexivity|].
  exact IH.
Qed.

Lemma mpmc_dequeue_returns fuel (q : Queue) r b r' q' :
  dequeue fuel q r = Some (b, r', q') ->
  (b = true /\
   r' = MPMC.element (slot_at (MPMC.slots_ q) (Z.land (MPMC.tail_ q) (Capacity - 1))) /\
   q' = after_dequeue q)
  \/ (b = false /\ r' = r /\ q' = q).
Proof.
  induction fuel as [|fuel IH]; [discriminate|].
  rewrite mpmc_dequeue_step. cbv zeta.
  destruct (_ =? 0); [intros [= <- <- <-]; left; repeat split|].
  destruct (_ <? 0); [intros [= <- <- <-]; right; repeat split|].
  exact IH.
Qed.

Lemma mpmc_dequeue_opt_returns fuel (q : Queue) o q' :
  dequeue_opt fuel q = Some (o, q') ->
  (o = Some (MPMC.element (slot_at (MPMC.slots_ q)
                             (Z.land (MPMC.tail_ q) (Capacity - 1)))) /\
   q' = after_dequeue q)
  \/ (o = None /\ q' = q).
Proof.
  unfold MPMC.dequeue_opt.
  destruct (dequeue fuel q dflt) as [[[b r'] q1]|] eqn:E; [|discriminate].
  apply mpmc_dequeue_returns in E.
  destruct E as [(-> & -> & ->)|(-> & -> & ->)]; intros [= <- <-]; [left|right];
    split; reflexivity.
Qed.

(** The two forms of [dequeue] agree, whatever the state and the fuel. *)
Lemma mpmc_dequeue_forms fuel (q : Queue) r :
  match dequeue fuel q r, dequeue_opt fuel q with
  | Some (true, out, q1), Some (Some v, q2) => out = v /\ q1 = q2
  | Some (false, out, q1), Some (None, q2) => out = r /\ q1 = q2
  | None, None => True
  | _, _ => False
  end.
Proof.
  unfold MPMC.dequeue_opt.
  induction fuel as [|fuel IH]; [exact I|].
  rewrite !mpmc_dequeue_step. cbv zeta.
  destruct (_ =? 0); [split; reflexivity|].
  destruct (_ <? 0); [split; reflexivity|].
  exact IH.
Qed.


(** *** One call, on a state that represents a FIFO *)

Hypothesis Hcap : valid_capacity Capacity.

Lemma mpmc_rep_new : mpmc_rep dflt Capacity 0 0 [] new_queue.
Proof.
  pose proof (capacity_pos _ Hcap) as Hpos.
  split; simpl; try reflexivity; try lia.
  - apply mpmc_new_length. lia.
  - intros j Hj. rewrite Z.mod_small by lia.
    rewrite mpmc_new_slot by lia. simpl.
    symmetry. apply wrap_small. destruct Hcap as [[? ?] _]. lia.
Qed.

Lemma mpmc_rep_head_slot E D xs (q : Queue) :
  mpmc_rep dflt Capacity E D xs q ->
  Z.land (MPMC.head_ q) (Capacity - 1) = E mod Capacity.
Proof. intros R. rewrite (mrep_head _ _ _ _ _ _ R). apply land_mask_wrap, Hcap. Qed.

Lemma mpmc_rep_tail_slot E D xs (q : Queue) :
  mpmc_rep dflt Capacity E D xs q ->
  Z.land (MPMC.tail_ q) (Capacity - 1) = D mod Capacity.
Proof. intros R. rewrite (mrep_tail _ _ _ _ _ _ R). apply land_mask_wrap, Hcap. Qed.

Lemma mpmc_slot_in_range E D xs (q : Queue) j :
  mpmc_rep dflt Capacity E D xs q ->
  0 <= j mod Capacity < Z.of_nat (length (MPMC.slots_ q)).
Proof.
  intros R. pose proof (capacity_pos _ Hcap).
  rewrite (mrep_slots _ _ _ _ _ _ R), Z2Nat.id by lia.
  apply Z.mod_pos_bound. lia.
Qed.

(** With room left, [enqueue] claims position [E] on its first pass. *)
Lemma mpmc_enqueue_room E D xs (q : Queue) fuel v :
  mpmc_rep dflt Capacity E D xs q -> E - D < Capacity ->
  enqueue (S fuel) q v = Some (true, after_enqueue q v) /\
  mpmc_rep dflt Capacity (E + 1) D (xs ++ [v]) (after_enqueue q v).
Proof.
  intros R Hroom. pose proof (capacity_pos _ Hcap) as Hpos.
  pose proof R as [HD Hlen Hbound Hhead Htail Hslots Hfilled Hfree].
  assert (HE : D <= E) by lia.
  split.
  - rewrite mpmc_enqueue_step. cbv zeta.
    rewrite (mpmc_rep_head_slot _ _ _ _ R).
    rewrite (Hfree E) by lia. rewrite Hhead.
    unfold MPMC.enqueue_diff.
    rewrite (signed_diff_wrap E E 0) by (pose proof half_modulus_gt1; lia).
    reflexivity.
  - unfold mpmc_after_enqueue.
    rewrite (mpmc_rep_head_slot _ _ _ _ R), Hhead, wrap_add_l.
    pose proof (mpmc_slot_in_range _ _ _ _ E R) as HEr.
    split; simpl.
    + assumption.
    + rewrite length_app. simpl. lia.
    + lia.
    + reflexivity.
    + assumption.
    + rewrite length_insert. assumption.
    + intros j Hj. destruct (Z.eq_dec j E) as [->|Hne].
      * rewrite mpmc_slot_at_insert_eq by assumption. simpl. split; [reflexivity|].
        rewrite lookup_app_r by lia.
        replace (Z.to_nat (E - D) - length xs)%nat with 0%nat by lia. reflexivity.
      * assert (j mod Capacity <> E mod Capacity).
        { intros Heq. apply Hne.
          apply (window_slot_inj _ Hcap D); [lia|lia|assumption]. }
        rewrite mpmc_slot_at_insert_ne by (try apply Z.mod_pos_bound; lia).
        destruct (Hfilled j ltac:(lia)) as [Hs Hx]. split; [assumption|].
        rewrite lookup_app_l by lia. assumption.
    + intros j Hj.
      assert (j mod Capacity <> E mod Capacity).
      { intros Heq. assert (j = E); [|lia].
        apply (window_slot_inj _ Hcap D); [lia|lia|assumption]. }
      rewrite mpmc_slot_at_insert_ne by (try apply Z.mod_pos_bound; lia).
      apply Hfree. lia.
Qed.

(** On a full queue of at least two slots, [enqueue] returns [false]
    on its first pass. *)
Lemma mpmc_enqueue_full E D xs (q : Queue) fuel v :
  2 <= Capacity ->
  mpmc_rep dflt Capacity E D xs q -> E - D = Capacity ->
  enqueue (S fuel) q v = Some (false, q).
Proof.
  intros H2 R Hfull.
  pose proof R as [HD Hlen Hbound Hhead Htail Hslots Hfilled Hfree].
  pose proof (capacity_le_half _ Hcap) as Hhalf.
  rewrite mpmc_enqueue_step. cbv zeta.
  rewrite (mpmc_rep_head_slot _ _ _ _ R).
  replace (E mod Capacity) with (D mod Capacity).
  2:{ replace E with (D + 1 * Capacity) by lia. rewrite Z.mod_add by lia. reflexivity. }
  destruct (Hfilled D ltac:(lia)) as [-> _]. rewrite Hhead.
  unfold MPMC.enqueue_diff.
  rewrite (signed_diff_wrap (D + 1) E (1 - Capacity)) by lia.
  destruct (1 - Capacity =? 0) eqn:E0; [lia|].
  destruct (1 - Capacity <? 0) eqn:E1; [reflexivity|lia].
Qed.

(** On a non-empty queue, [dequeue] claims position [D] on its first
    pass and returns the oldest element. *)
Lemma mpmc_dequeue_some E D x xs (q : Queue) fuel r :
  mpmc_rep dflt Capacity E D (x :: xs) q ->
  dequeue (S fuel) q r = Some (true, x, after_dequeue q) /\
  mpmc_rep dflt Capacity E (D + 1) xs (after_dequeue q).
Proof.
  intros R. pose proof (capacity_pos _ Hcap) as Hpos.
  pose proof R as [HD Hlen Hbound Hhead Htail Hslots Hfilled Hfree].
  simpl in Hlen.
  destruct (Hfilled D ltac:(lia)) as [Hseq Hx].
  replace (Z.to_nat (D - D)) with 0%nat in Hx by lia. simpl in Hx.
  injection Hx as Hx.
  split.
  - rewrite mpmc_dequeue_step. cbv zeta.
    rewrite (mpmc_rep_tail_slot _ _ _ _ R), Hseq, Htail, <- Hx.
    unfold MPMC.dequeue_diff.
    rewrite (signed_diff_wrap (D + 1) D 1) by (pose proof half_modulus_gt1; lia).
    reflexivity.
  - unfold mpmc_after_dequeue.
    rewrite (mpmc_rep_tail_slot _ _ _ _ R), Htail, !wrap_add_l.
    pose proof (mpmc_slot_in_range _ _ _ _ D R) as HDr.
    split; simpl.
    + lia.
    + lia.
    + lia.
    + assumption.
    + reflexivity.
    + rewrite length_insert. assumption.
    + intros j Hj.
      assert (j mod Capacity <> D mod Capacity).
      { intros Heq. assert (j = D); [|lia].
        apply (window_slot_inj _ Hcap D); [lia|lia|assumption]. }
      rewrite mpmc_slot_at_insert_ne by (try apply Z.mod_pos_bound; lia).
      destruct (Hfilled j ltac:(lia)) as [Hs Hy]. split; [assumption|].
      rewrite <- Hy. replace (Z.to_nat (j - D)) with (S (Z.to_nat (j - (D + 1)))) by lia.
      reflexivity.
    + intros j Hj. destruct (Z.eq_dec j (D + Capacity)) as [->|Hne].
      * replace ((D + Capacity) mod Capacity) with (D mod Capacity).
        2:{ replace (D + Capacity) with (D + 1 * Capacity) by lia.
            rewrite Z.mod_add by lia. reflexivity. }
        rewrite mpmc_slot_at_insert_eq by assumption. reflexivity.
      * assert (j mod Capacity <> D mod Capacity).
        { intros Heq. assert (j = D); [|lia].
          apply (window_slot_inj _ Hcap D); [lia|lia|assumption]. }
        rewrite mpmc_slot_at_insert_ne by (try apply Z.mod_pos_bound; lia).
        apply Hfree. lia.
Qed.

(** On an empty queue, [dequeue] returns [false] on its first pass. *)
Lemma mpmc_dequeue_none E D (q : Queue) fuel r :
  mpmc_rep dflt Capacity E D [] q ->
  dequeue (S fuel) q r = Some (false, r, q).
Proof.
  intros R. pose proof (capacity_pos _ Hcap) as Hpos.
  pose proof R as [HD Hlen Hbound Hhead Htail Hslots Hfilled Hfree].
  simpl in Hlen.
  rewrite mpmc_dequeue_step. cbv zeta.
  rewrite (mpmc_rep_tail_slot _ _ _ _ R).
  rewrite (Hfree D) by lia. rewrite Htail.
  unfold MPMC.dequeue_diff.
  rewrite (signed_diff_wrap D D 0) by (pose proof half_modulus_gt1; lia).
  reflexivity.
Qed.


(** *** Reachable states of a queue of at least two slots *)

Lemma mpmc_reach_rep E D (q : Queue) :
  2 <= Capacity ->
  mpmc_reach dflt moved Capacity E D q ->
  exists xs, mpmc_rep dflt Capacity E D xs q.
Proof.
  intros H2 Hreach.
  induction Hreach as [|E D q fuel v b q' _ [xs R] Hcall
                       |E D q fuel r b r' q' _ [xs R] Hcall
                       |E D q fuel o q' _ [xs R] Hcall].
  - exists []. apply mpmc_rep_new.
  - destruct fuel as [|fuel]; [discriminate|].
    destruct (Z.eq_dec (E - D) Capacity) as [Hfull|Hroom].
    + rewrite (mpmc_enqueue_full _ _ _ _ _ _ H2 R Hfull) in Hcall.
      injection Hcall as <- <-. exists xs. assumption.
    + pose proof (mrep_bound _ _ _ _ _ _ R).
      destruct (mpmc_enqueue_room E D xs q fuel v R ltac:(lia)) as [Hrun R'].
      rewrite Hrun in Hcall. injection Hcall as <- <-.
      exists (xs ++ [v]). assumption.
  - destruct fuel as [|fuel]; [discriminate|].
    destruct xs as [|x xs].
    + rewrite (mpmc_dequeue_none _ _ _ _ _ R) in Hcall.
      injection Hcall as <- <- <-. exists []. assumption.
    + destruct (mpmc_dequeue_some E D x xs q fuel r R) as [Hrun R'].
      rewrite Hrun in Hcall. injection Hcall as <- <- <-.
      exists xs. assumption.
  - destruct fuel as [|fuel]; [discriminate|].
    unfold MPMC.dequeue_opt in Hcall.
    destruct xs as [|x xs].
    + rewrite (mpmc_dequeue_none _ _ _ _ _ R) in Hcall.
      injection Hcall as <- <-. exists []. assumption.
    + destruct (mpmc_dequeue_some E D x xs q fuel dflt R) as [Hrun R'].
      rewrite Hrun in Hcall. injection Hcall as <- <-.
      exists xs. assumption.
Qed.

(** What the driver operations do on a represented state. *)
Lemma mpmc_enq_room E D xs (q : Queue) fuel v :
  mpmc_rep dflt Capacity E D xs q -> E - D < Capacity ->
  exists q', mpmc_enq dflt Capacity (S fuel) q v = Some (true, q') /\
             mpmc_rep dflt Capacity (E + 1) D (xs ++ [v]) q'.
Proof.
  intros R Hroom. exists (after_enqueue q v).
  apply mpmc_enqueue_room; assumption.
Qed.

Lemma mpmc_enq_full E D xs (q : Queue) fuel v :
  2 <= Capacity ->
  mpmc_rep dflt Capacity E D xs q -> E - D = Capacity ->
  mpmc_enq dflt Capacity (S fuel) q v = Some (false, q).
Proof. apply mpmc_enqueue_full. Qed.

Lemma mpmc_deq_some E D x xs (q : Queue) fuel :
  mpmc_rep dflt Capacity E D (x :: xs) q ->
  exists q', mpmc_deq dflt moved Capacity (S fuel) q = Some (Some x, q') /\
             mpmc_rep dflt Capacity E (D + 1) xs q'.
Proof.
  intros R. exists (after_dequeue q).
  destruct (mpmc_dequeue_some E D x xs q fuel dflt R) as [Hrun R'].
  split; [|assumption].
  unfold mpmc_deq, MPMC.dequeue_opt. rewrite Hrun. reflexivity.
Qed.

Lemma mpmc_deq_none E D (q : Queue) fuel :
  mpmc_rep dflt Capacity E D [] q ->
  mpmc_deq dflt moved Capacity (S fuel) q = Some (None, q).
Proof.
  intros R. unfold mpmc_deq, MPMC.dequeue_opt.
  rewrite (mpmc_dequeue_none _ _ _ _ dflt R). reflexivity.
Qed.

End MPMCFacts.


(** ** The counter ring buffer *)

Section RingFacts.
Context {T : Type}.
Variable dflt : T.
Variable moved : T -> T.
Variable Capacity : Z.

Abbreviation Buffer := (@Ring.RingBuffer T).
Abbreviation buffer_at := (Ring.buffer_at dflt).
Abbreviation try_enqueue := (Ring.try_enqueue Capacity).
Abbreviation try_dequeue := (Ring.try_dequeue dflt moved Capacity).
Abbreviation try_dequeue_opt := (Ring.try_dequeue_opt dflt moved Capacity).
Abbreviation new_buffer := (Ring.new_buffer dflt Capacity).

Lemma ring_buffer_at_insert_eq (buffer : list T) i x :
  0 <= i < Z.of_nat (length buffer) ->
  buffer_at (<[Z.to_nat i := x]> buffer) i = x.
Proof.
  intros Hi. unfold Ring.buffer_at.
  rewrite list_lookup_insert_eq by lia. reflexivity.
Qed.

Lemma ring_buffer_at_insert_ne (buffer : list T) i j x :
  0 <= i -> 0 <= j -> i <> j ->
  buffer_at (<[Z.to_nat i := x]> buffer) j = buffer_at buffer j.
Proof.
  intros Hi Hj Hne. unfold Ring.buffer_at.
  rewrite list_lookup_insert_ne by lia. reflexivity.
Qed.

(** *** One call, on any state *)

(** The two overloads of [try_enqueue] run the same steps. *)
Lemma ring_try_enqueue_move (q : Buffer) v :
  Ring.try_enqueue_move Capacity q v = try_enqueue q v.
Proof. reflexivity. Qed.

(** The compare-and-swap of [try_dequeue] meets the value just read. *)
Lemma ring_cas_tail tail desired :
  Ring.compare_exchange_strong tail tail desired = (true, desired).
Proof. unfold Ring.compare_exchange_strong. rewrite Z.eqb_refl. reflexivity. Qed.

Lemma ring_try_dequeue_opt_eq (q : Buffer) :
  try_dequeue_opt q =
    if Ring.head_ q <=? Ring.tail_ q then (None, q)
    else
      let i := Z.land (Ring.tail_ q) (Capacity - 1) in
      (Some (buffer_at (Ring.buffer_ q) i),
       {| Ring.head_ := Ring.head_ q;
          Ring.tail_ := wrap (Ring.tail_ q + 1);
          Ring.buffer_ := <[Z.to_nat i := moved (buffer_at (Ring.buffer_ q) i)]>
                            (Ring.buffer_ q) |}).
Proof.
  unfold Ring.try_dequeue_opt, Ring.mask_. cbv zeta.
  rewrite ring_cas_tail. reflexivity.
Qed.

(** The two forms of [try_dequeue] agree on every state. *)
Lemma ring_try_dequeue_forms (q : Buffer) r :
  try_dequeue q r =
    match try_dequeue_opt q with
    | (Some v, q') => (true, v, q')
    | (None, q') => (false, r, q')
    end.
Proof.
  rewrite ring_try_dequeue_opt_eq.
  unfold Ring.try_dequeue, Ring.mask_. cbv zeta.
  destruct (_ <=? _); [reflexivity|].
  rewrite ring_cas_tail. reflexivity.
Qed.

(** *** One call, on a state that represents a FIFO *)

Hypothesis Hcap : valid_capacity Capacity.

Lemma ring_rep_new : ring_rep dflt Capacity 0 0 [] new_buffer.
Proof.
  split; simpl; try reflexivity; try lia.
  - pose proof (capacity_pos _ Hcap). lia.
  - apply length_replicate.
Qed.

Lemma ring_slot_in_range E D xs (q : Buffer) j :
  ring_rep dflt Capacity E D xs q ->
  0 <= j mod Capacity < Z.of_nat (length (Ring.buffer_ q)).
Proof.
  intros R. pose proof (capacity_pos _ Hcap).
  rewrite (rrep_buffer _ _ _ _ _ _ R), Z2Nat.id by lia.
  apply Z.mod_pos_bound. lia.
Qed.

(** The fullness test of [try_enqueue] compares [E + 1 - D] with the
    capacity, whatever the counters have wrapped to. *)
Lemma ring_full_test E D xs (q : Buffer) :
  ring_rep dflt Capacity E D xs q ->
  wrap (wrap (Ring.head_ q + 1) - Ring.tail_ q) = E + 1 - D.
Proof.
  intros R. pose proof R as [HD Hlen Hbound Hhead Htail Hbuf Hcells].
  pose proof (capacity_le_half _ Hcap). pose proof half_modulus_gt1.
  rewrite Hhead, Htail, wrap_add_l, wrap_sub_mod.
  apply wrap_small. rewrite modulus_half. lia.
Qed.

Lemma ring_try_enqueue_room E D xs (q : Buffer) v :
  ring_rep dflt Capacity E D xs q -> E - D < Capacity ->
  exists q', try_enqueue q v = (true, q') /\
             ring_rep dflt Capacity (E + 1) D (xs ++ [v]) q'.
Proof.
  intros R Hroom. pose proof (capacity_pos _ Hcap) as Hpos.
  pose proof R as [HD Hlen Hbound Hhead Htail Hbuf Hcells].
  unfold Ring.try_enqueue. cbv zeta.
  rewrite (ring_full_test _ _ _ _ R).
  destruct (E + 1 - D >? Capacity) eqn:Hgt; [lia|].
  eexists. split; [reflexivity|].
  unfold Ring.mask_. rewrite Hhead, (land_mask_wrap _ Hcap), wrap_add_l.
  pose proof (ring_slot_in_range _ _ _ _ E R) as HEr.
  split; simpl.
  - assumption.
  - rewrite length_app. simpl. lia.
  - lia.
  - reflexivity.
  - assumption.
  - rewrite length_insert. assumption.
  - intros j Hj. destruct (Z.eq_dec j E) as [->|Hne].
    + rewrite ring_buffer_at_insert_eq by assumption.
      rewrite lookup_app_r by lia.
      replace (Z.to_nat (E - D) - length xs)%nat with 0%nat by lia. reflexivity.
    + assert (j mod Capacity <> E mod Capacity).
      { intros Heq. apply Hne.
        apply (window_slot_inj _ Hcap D); [lia|lia|assumption]. }
      rewrite ring_buffer_at_insert_ne by (try apply Z.mod_pos_bound; lia).
      rewrite lookup_app_l by lia. apply Hcells. lia.
Qed.

Lemma ring_try_enqueue_full E D xs (q : Buffer) v :
  ring_rep dflt Capacity E D xs q -> E - D = Capacity ->
  try_enqueue q v = (false, q).
Proof.
  intros R Hfull. unfold Ring.try_enqueue. cbv zeta.
  rewrite (ring_full_test _ _ _ _ R).
  destruct (E + 1 - D >? Capacity) eqn:Hgt; [reflexivity|lia].
Qed.

(** When the emptiness test of [try_dequeue] lets the call through,
    the call returns the oldest element. *)
Lemma ring_try_dequeue_pass E D xs (q : Buffer) :
  ring_rep dflt Capacity E D xs q ->
  (Ring.head_ q <=? Ring.tail_ q) = false ->
  exists x xs' q', xs = x :: xs' /\
    try_dequeue_opt q = (Some x, q') /\
    ring_rep dflt Capacity E (D + 1) xs' q'.
Proof.
  intros R Hpass. pose proof (capacity_pos _ Hcap) as Hpos.
  pose proof R as [HD Hlen Hbound Hhead Htail Hbuf Hcells].
  destruct xs as [|x xs].
  { simpl in Hlen. assert (E = D) as -> by lia.
    rewrite Hhead, Htail in Hpass. lia. }
  simpl in Hlen.
  pose proof (Hcells D ltac:(lia)) as Hx.
  replace (Z.to_nat (D - D)) with 0%nat in Hx by lia. simpl in Hx.
  injection Hx as Hx.
  rewrite ring_try_dequeue_opt_eq, Hpass. cbv zeta.
  rewrite Htail, (land_mask_wrap _ Hcap), wrap_add_l, <- Hx.
  exists x, xs. eexists. split; [reflexivity|]. split; [reflexivity|].
  pose proof (ring_slot_in_range _ _ _ _ D R) as HDr.
  split; simpl.
  - lia.
  - lia.
  - lia.
  - assumption.
  - reflexivity.
  - rewrite length_insert. assumption.
  - intros j Hj.
    assert (j mod Capacity <> D mod Capacity).
    { intros Heq. assert (j = D); [|lia].
      apply (window_slot_inj _ Hcap D); [lia|lia|assumption]. }
    rewrite ring_buffer_at_insert_ne by (try apply Z.mod_pos_bound; lia).
    rewrite <- (Hcells j) by lia.
    replace (Z.to_nat (j - D)) with (S (Z.to_nat (j - (D + 1)))) by lia.
    reflexivity.
Qed.

(** Before the producer counter has wrapped, the emptiness test of
    [try_dequeue] is exact. *)
Lemma ring_empty_test E D xs (q : Buffer) :
  ring_rep dflt Capacity E D xs q -> E < modulus ->
  (Ring.head_ q <=? Ring.tail_ q) = (E =? D).
Proof.
  intros R HE. pose proof R as [HD Hlen Hbound Hhead Htail Hbuf Hcells].
  rewrite Hhead, Htail, !wrap_small by lia.
  destruct (E <=? D) eqn:H1, (E =? D) eqn:H2; try reflexivity; lia.
Qed.

Lemma ring_try_dequeue_some E D x xs (q : Buffer) :
  ring_rep dflt Capacity E D (x :: xs) q -> E < modulus ->
  exists q', try_dequeue_opt q = (Some x, q') /\
             ring_rep dflt Capacity E (D + 1) xs q'.
Proof.
  intros R HE.
  pose proof (ring_empty_test _ _ _ _ R HE) as Htest.
  pose proof (rrep_length _ _ _ _ _ _ R) as Hlen. simpl in Hlen.
  destruct (E =? D) eqn:HED; [lia|].
  destruct (ring_try_dequeue_pass _ _ _ _ R Htest) as (x' & xs' & q' & [= <- <-] & Hrun & R').
  exists q'. split; assumption.
Qed.

Lemma ring_try_dequeue_none E D (q : Buffer) :
  ring_rep dflt Capacity E D [] q ->
  try_dequeue_opt q = (None, q).
Proof.
  intros R. pose proof R as [HD Hlen Hbound Hhead Htail Hbuf Hcells].
  simpl in Hlen. assert (E = D) as -> by lia.
  rewrite ring_try_dequeue_opt_eq, Hhead, Htail, Z.leb_refl. reflexivity.
Qed.

(** *** Reachable states *)

Lemma ring_reach_rep E D (q : Buffer) :
  ring_reach dflt moved Capacity E D q ->
  exists xs, ring_rep dflt Capacity E D xs q.
Proof.
  assert (Henq : forall E D xs (q : Buffer) v b q',
             ring_rep dflt Capacity E D xs q -> try_enqueue q v = (b, q') ->
             exists xs', ring_rep dflt Capacity (if b then E + 1 else E) D xs' q').
  { intros E0 D0 xs q0 v b q' R Hcall.
    destruct (Z.eq_dec (E0 - D0) Capacity) as [Hfull|Hroom].
    - rewrite (ring_try_enqueue_full _ _ _ _ v R Hfull) in Hcall.
      injection Hcall as <- <-. exists xs. assumption.
    - pose proof (rrep_bound _ _ _ _ _ _ R).
      destruct (ring_try_enqueue_room _ _ _ _ v R ltac:(lia)) as (q1 & Hrun & R').
      rewrite Hrun in Hcall. injection Hcall as <- <-.
      exists (xs ++ [v]). assumption. }
  assert (Hdeq : forall E D xs (q : Buffer) o q',
             ring_rep dflt Capacity E D xs q -> try_dequeue_opt q = (o, q') ->
             exists xs', ring_rep dflt Capacity E
                           (match o with Some _ => D + 1 | None => D end) xs' q').
  { intros E0 D0 xs q0 o q' R Hcall.
    destruct (Ring.head_ q0 <=? Ring.tail_ q0) eqn:Htest.
    - rewrite ring_try_dequeue_opt_eq, Htest in Hcall.
      injection Hcall as <- <-. exists xs. assumption.
    - destruct (ring_try_dequeue_pass _ _ _ _ R Htest) as (x & xs' & q1 & -> & Hrun & R').
      rewrite Hrun in Hcall. injection Hcall as <- <-.
      exists xs'. assumption. }
  intros Hreach.
  induction Hreach as [|E D q v b q' _ [xs R] Hcall
                       |E D q v b q' _ [xs R] Hcall
                       |E D q r b r' q' _ [xs R] Hcall
                       |E D q o q' _ [xs R] Hcall].
  - exists []. apply ring_rep_new.
  - eapply Henq; eassumption.
  - rewrite ring_try_enqueue_move in Hcall. eapply Henq; eassumption.
  - rewrite ring_try_dequeue_forms in Hcall.
    destruct (try_dequeue_opt q) as [[v|] q1] eqn:Hopt; injection Hcall as <- <- <-.
    + apply (Hdeq _ _ _ _ _ _ R Hopt).
    + apply (Hdeq _ _ _ _ _ _ R Hopt).
  - eapply Hdeq; eassumption.
Qed.

(** What the driver operations do on a represented state. *)
Lemma ring_enq_room E D xs (q : Buffer) v :
  ring_rep dflt Capacity E D xs q -> E - D < Capacity ->
  exists q', ring_enq Capacity q v = Some (true, q') /\
             ring_rep dflt Capacity (E + 1) D (xs ++ [v]) q'.
Proof.
  intros R Hroom.
  destruct (ring_try_enqueue_room _ _ _ _ v R Hroom) as (q' & Hrun & R').
  exists q'. unfold ring_enq. rewrite Hrun. split; [reflexivity|assumption].
Qed.

Lemma ring_enq_full E D xs (q : Buffer) v :
  ring_rep dflt Capacity E D xs q -> E - D = Capacity ->
  ring_enq Capacity q v = Some (false, q).
Proof.
  intros R Hfull. unfold ring_enq.
  rewrite (ring_try_enqueue_full _ _ _ _ v R Hfull). reflexivity.
Qed.

Lemma ring_deq_some E D x xs (q : Buffer) :
  ring_rep dflt Capacity E D (x :: xs) q -> E < modulus ->
  exists q', ring_deq dflt moved Capacity q = Some (Some x, q') /\
             ring_rep dflt Capacity E (D + 1) xs q'.
Proof.
  intros R HE.
  destruct (ring_try_dequeue_some _ _ _ _ _ R HE) as (q' & Hrun & R').
  exists q'. unfold ring_deq. rewrite Hrun. split; [reflexivity|assumption].
Qed.

Lemma ring_deq_none E D (q : Buffer) :
  ring_rep dflt Capacity E D [] q ->
  ring_deq dflt moved Capacity q = Some (None, q).
Proof.
  intros R. unfold ring_deq. rewrite (ring_try_dequeue_none _ _ _ R). reflexivity.
Qed.
End RingFacts.


(** ** Call sequences on a queue that represents a FIFO

    The lemmas of this section hold for any pair of operations that
    behave as a bounded FIFO on the represented states; [good E] is
    the condition on the number of enqueues under which a dequeue is
    exact. *)

Section DriverFacts.
Context {Q T : Type}.
Variable enq : Q -> T -> option (bool * Q).
Variable deq : Q -> option (option T * Q).
Variable rep : Z -> Z -> list T -> Q -> Prop.
Variable good : Z -> Prop.
Variable Capacity : Z.

Hypothesis good_down : forall E E', E' <= E -> good E -> good E'.
Hypothesis rep_count : forall E D xs q,
  rep E D xs q -> E - D = Z.of_nat (length xs).
Hypothesis enq_room : forall E D xs q v,
  rep E D xs q -> E - D < Capacity ->
  exists q', enq q v = Some (true, q') /\ rep (E + 1) D (xs ++ [v]) q'.
Hypothesis enq_full : forall E D xs q v,
  rep E D xs q -> E - D = Capacity -> enq q v = Some (false, q).
Hypothesis deq_some : forall E D x xs q,
  rep E D (x :: xs) q -> good E ->
  exists q', deq q = Some (Some x, q') /\ rep E (D + 1) xs q'.

Lemma enqueue_all_room vs : forall E D xs q,
  rep E D xs q -> E - D + Z.of_nat (length vs) <= Capacity ->
  exists q', enqueue_all enq vs q = Some (repeat true (length vs), q') /\
             rep (E + Z.of_nat (length vs)) D (xs ++ vs) q'.
Proof.
  induction vs as [|v vs IH]; intros E D xs q R Hroom.
  - exists q. simpl. rewrite Z.add_0_r, app_nil_r. split; [reflexivity|assumption].
  - simpl length in *.
    destruct (enq_room E D xs q v R ltac:(lia)) as (q1 & Hrun & R1).
    destruct (IH (E + 1) D (xs ++ [v]) q1 R1 ltac:(lia)) as (q2 & Hrest & R2).
    exists q2. simpl. rewrite Hrun, Hrest. split; [reflexivity|].
    replace (E + Z.of_nat (S (length vs))) with (E + 1 + Z.of_nat (length vs)) by lia.
    rewrite <- app_assoc in R2. exact R2.
Qed.

Lemma dequeue_n_front xs : forall E D ys q,
  rep E D (xs ++ ys) q -> good E ->
  exists q', dequeue_n deq (length xs) q = Some (map Some xs, q') /\
             rep E (D + Z.of_nat (length xs)) ys q'.
Proof.
  induction xs as [|x xs IH]; intros E D ys q R Hgood.
  - exists q. simpl. rewrite Z.add_0_r. split; [reflexivity|assumption].
  - destruct (deq_some E D x (xs ++ ys) q R Hgood) as (q1 & Hrun & R1).
    destruct (IH E (D + 1) ys q1 R1 Hgood) as (q2 & Hrest & R2).
    exists q2. simpl. rewrite Hrun, Hrest. split; [reflexivity|].
    replace (D + Z.of_nat (S (length xs))) with (D + 1 + Z.of_nat (length xs)) by lia.
    exact R2.
Qed.

(** Filling an empty queue with at most [Capacity] values and then
    draining it gives the values back, in order. *)
Lemma fill_drain_identity vs E D q :
  rep E D [] q -> Z.of_nat (length vs) <= Capacity ->
  good (E + Z.of_nat (length vs)) ->
  exists q', fill_drain enq deq vs q =
               Some (repeat true (length vs), map Some vs, q') /\
             rep (E + Z.of_nat (length vs)) (D + Z.of_nat (length vs)) [] q'.
Proof.
  intros R Hlen Hgood.
  pose proof (rep_count _ _ _ _ R) as Hcount. simpl in Hcount.
  destruct (enqueue_all_room vs E D [] q R ltac:(lia)) as (q1 & Hfill & R1).
  simpl in R1. rewrite <- (app_nil_r vs) in R1 at 2.
  destruct (dequeue_n_front vs _ D [] q1 R1 Hgood) as (q2 & Hdrain & R2).
  exists q2. unfold fill_drain. rewrite Hfill, Hdrain.
  split; [reflexivity|assumption].
Qed.

Lemma fill_drain_cycles_identity cycles : forall E D q,
  rep E D [] q ->
  Forall (fun vs => Z.of_nat (length vs) <= Capacity) cycles ->
  good (E + total_length cycles) ->
  exists q', fill_drain_cycles enq deq cycles q =
               Some (map (fun vs => (repeat true (length vs), map Some vs)) cycles, q') /\
             rep (E + total_length cycles) (D + total_length cycles) [] q'.
Proof.
  unfold total_length.
  induction cycles as [|vs cycles IH]; intros E D q R Hall Hgood.
  - exists q. simpl. rewrite !Z.add_0_r. split; [reflexivity|assumption].
  - apply Forall_cons in Hall as [Hvs Hall].
    simpl concat in *. rewrite length_app, Nat2Z.inj_add in *.
    destruct (fill_drain_identity vs E D q R Hvs) as (q1 & Hcycle & R1).
    { eapply good_down; [|exact Hgood]. lia. }
    destruct (IH _ _ q1 R1 Hall) as (q2 & Hrest & R2).
    { rewrite Z.add_assoc in Hgood. exact Hgood. }
    exists q2. simpl. rewrite Hcycle, Hrest. split; [reflexivity|].
    rewrite !Z.add_assoc. exact R2.
Qed.

(** The capacity bound: [Capacity] enqueues succeed and the next one
    fails; after one dequeue one more succeeds and the next fails. *)
Lemma capacity_bound_run vs v1 v2 v3 E D q :
  rep E D [] q -> Z.of_nat (length vs) = Capacity -> 0 < Capacity ->
  good (E + Capacity) ->
  exists q1 x q2 q3,
    enqueue_all enq (vs ++ [v1]) q = Some (repeat true (length vs) ++ [false], q1) /\
    deq q1 = Some (Some x, q2) /\ hd_error vs = Some x /\
    enqueue_all enq [v2; v3] q2 = Some ([true; false], q3).
Proof.
  intros R Hlen Hpos Hgood.
  pose proof (rep_count _ _ _ _ R) as Hcount. simpl in Hcount.
  destruct (enqueue_all_room vs E D [] q R ltac:(lia)) as (q1 & Hfill & R1).
  simpl in R1.
  pose proof (enq_full _ _ _ _ v1 R1 ltac:(lia)) as Hfull.
  destruct vs as [|x vs]; [simpl in Hlen; lia|].
  rewrite Hlen in *.
  destruct (deq_some _ _ _ _ _ R1 Hgood) as (q2 & Hdeq & R2).
  destruct (enq_room _ _ _ _ v2 R2 ltac:(lia)) as (q3 & Henq & R3).
  pose proof (enq_full _ _ _ _ v3 R3 ltac:(lia)) as Hfull3.
  exists q1, x, q2, q3. repeat split.
  - clear Hdeq Henq Hfull3 R2 R3 R1 Hgood R Hcount.
    revert q Hfill. generalize (x :: vs) as l.
    induction l as [|a l IHl]; intros q Hfill.
    + simpl in Hfill. injection Hfill as <-. simpl. rewrite Hfull. reflexivity.
    + simpl in Hfill |- *.
      destruct (enq q a) as [[b qa]|]; [|discriminate].
      destruct (enqueue_all enq l qa) as [[bs qb]|] eqn:Hl; [|discriminate].
      injection Hfill as -> -> ->.
      rewrite (IHl qa Hl). reflexivity.
  - exact Hdeq.
  - simpl. rewrite Henq, Hfull3. reflexivity.
Qed.
End DriverFacts.


(** ** Both queues as bounded FIFOs *)

Section Runs.
Context {T : Type}.
Variable dflt : T.
Variable moved : T -> T.
Variable Capacity : Z.
Hypothesis Hcap : valid_capacity Capacity.

Abbreviation menq := (mpmc_enq dflt Capacity).
Abbreviation mdeq := (mpmc_deq dflt moved Capacity).
Abbreviation renq := (@ring_enq T Capacity).
Abbreviation rdeq := (ring_deq dflt moved Capacity).
Abbreviation mnew := (MPMC.new_queue dflt Capacity).
Abbreviation rnew := (Ring.new_buffer dflt Capacity).
Abbreviation mrep := (mpmc_rep dflt Capacity).
Abbreviation rrep := (ring_rep dflt Capacity).

Lemma unwrapped_down E E' : E' <= E -> unwrapped E -> unwrapped E'.
Proof. unfold unwrapped. lia. Qed.

Lemma capacity_lt_modulus : Capacity < modulus.
Proof. destruct Hcap as [[_ ?] _]. assumption. Qed.

(** The number of stored elements is the wrapped difference of the
    counters. *)
Lemma wrap_diff_count E D :
  0 <= E - D <= Capacity -> wrap (wrap E - wrap D) = E - D.
Proof.
  intros H. rewrite wrap_sub_mod. apply wrap_small.
  pose proof capacity_lt_modulus. lia.
Qed.

Lemma wrap_eq_count E D :
  0 <= E - D <= Capacity -> wrap E = wrap D <-> E = D.
Proof.
  intros H. split; [|intros ->; reflexivity].
  intros Heq. pose proof (wrap_diff_count E D H) as Hd.
  rewrite Heq, Z.sub_diag in Hd. change (wrap 0) with 0 in Hd. lia.
Qed.

Lemma mpmc_rep_range E D xs (q : MPMC.MPMCQueue) :
  mrep E D xs q -> 0 <= E - D <= Capacity.
Proof. intros [? Hlen ? _ _ _ _ _]. lia. Qed.

Lemma ring_rep_range E D xs (q : Ring.RingBuffer) :
  rrep E D xs q -> 0 <= E - D <= Capacity.
Proof. intros [? Hlen ? _ _ _ _]. lia. Qed.

(** *** Fill and drain *)

Lemma mpmc_fifo_run fuel (vs : list T) :
  Z.of_nat (length vs) <= Capacity ->
  exists q1 q2,
    enqueue_all (menq (S fuel)) vs mnew = Some (repeat true (length vs), q1) /\
    dequeue_n (mdeq (S fuel)) (length vs) q1 = Some (map Some vs, q2).
Proof.
  intros Hlen.
  destruct (enqueue_all_room (menq (S fuel)) mrep Capacity
              (fun E D xs q v => mpmc_enq_room dflt Capacity Hcap E D xs q fuel v)
              vs 0 0 [] mnew (mpmc_rep_new dflt Capacity Hcap) ltac:(lia))
    as (q1 & Hfill & R1).
  simpl in R1. rewrite <- (app_nil_r vs) in R1 at 2.
  destruct (dequeue_n_front (mdeq (S fuel)) mrep always
              (fun E D x xs q R _ => mpmc_deq_some dflt moved Capacity Hcap E D x xs q fuel R)
              vs _ 0 [] q1 R1 I)
    as (q2 & Hdrain & _).
  exists q1, q2. split; assumption.
Qed.

Lemma ring_fifo_run (vs : list T) :
  Z.of_nat (length vs) <= Capacity ->
  exists q1 q2,
    enqueue_all renq vs rnew = Some (repeat true (length vs), q1) /\
    dequeue_n rdeq (length vs) q1 = Some (map Some vs, q2).
Proof.
  intros Hlen.
  destruct (enqueue_all_room renq rrep Capacity
              (ring_enq_room dflt Capacity Hcap)
              vs 0 0 [] rnew (ring_rep_new dflt Capacity Hcap) ltac:(lia))
    as (q1 & Hfill & R1).
  simpl in R1. rewrite <- (app_nil_r vs) in R1 at 2.
  destruct (dequeue_n_front rdeq rrep unwrapped
              (ring_deq_some dflt moved Capacity Hcap)
              vs _ 0 [] q1 R1)
    as (q2 & Hdrain & _).
  { unfold unwrapped. pose proof capacity_lt_modulus. lia. }
  exists q1, q2. split; assumption.
Qed.

(** The sequenced-slot queue gives every cycle back, for any number
    of cycles and any capacity. *)
Lemma mpmc_cycles_run fuel (cycles : list (list T)) :
  Forall (fun vs => Z.of_nat (length vs) <= Capacity) cycles ->
  exists q',
    fill_drain_cycles (menq (S fuel)) (mdeq (S fuel)) cycles mnew =
      Some (map (fun vs => (repeat true (length vs), map Some vs)) cycles, q').
Proof.
  intros Hall.
  destruct (fill_drain_cycles_identity (menq (S fuel)) (mdeq (S fuel)) mrep always Capacity
              (fun _ _ _ _ => I)
              (mrep_length dflt Capacity)
              (fun E D xs q v => mpmc_enq_room dflt Capacity Hcap E D xs q fuel v)
              (fun E D x xs q R _ => mpmc_deq_some dflt moved Capacity Hcap E D x xs q fuel R)
              cycles 0 0 mnew (mpmc_rep_new dflt Capacity Hcap) Hall I)
    as (q' & Hrun & _).
  exists q'. assumption.
Qed.

(** The counter ring buffer does so while the producer counter has
    not wrapped. *)
Lemma ring_cycles_run (cycles : list (list T)) :
  Forall (fun vs => Z.of_nat (length vs) <= Capacity) cycles ->
  total_length cycles < modulus ->
  exists q',
    fill_drain_cycles renq rdeq cycles rnew =
      Some (map (fun vs => (repeat true (length vs), map Some vs)) cycles, q') /\
    rrep (total_length cycles) (total_length cycles) [] q'.
Proof.
  intros Hall Hlt.
  apply (fill_drain_cycles_identity renq rdeq rrep unwrapped Capacity
           unwrapped_down
           (rrep_length dflt Capacity)
           (ring_enq_room dflt Capacity Hcap)
           (ring_deq_some dflt moved Capacity Hcap)
           cycles 0 0 rnew (ring_rep_new dflt Capacity Hcap) Hall Hlt).
Qed.

(** *** The capacity bound *)

Lemma mpmc_capacity_bound fuel (vs : list T) v1 v2 v3 :
  2 <= Capacity -> Z.of_nat (length vs) = Capacity ->
  exists q1 x q2 q3,
    enqueue_all (menq (S fuel)) (vs ++ [v1]) mnew =
      Some (repeat true (length vs) ++ [false], q1) /\
    mdeq (S fuel) q1 = Some (Some x, q2) /\ hd_error vs = Some x /\
    enqueue_all (menq (S fuel)) [v2; v3] q2 = Some ([true; false], q3).
Proof.
  intros H2 Hlen.
  apply (capacity_bound_run (menq (S fuel)) (mdeq (S fuel)) mrep always Capacity
           (mrep_length dflt Capacity)
           (fun E D xs q v => mpmc_enq_room dflt Capacity Hcap E D xs q fuel v)
           (fun E D xs q v => mpmc_enq_full dflt Capacity Hcap E D xs q fuel v H2)
           (fun E D x xs q R _ => mpmc_deq_some dflt moved Capacity Hcap E D x xs q fuel R)
           vs v1 v2 v3 0 0 mnew (mpmc_rep_new dflt Capacity Hcap) Hlen
           (capacity_pos _ Hcap) I).
Qed.

Lemma ring_capacity_bound (vs : list T) v1 v2 v3 :
  Z.of_nat (length vs) = Capacity ->
  exists q1 x q2 q3,
    enqueue_all renq (vs ++ [v1]) rnew =
      Some (repeat true (length vs) ++ [false], q1) /\
    rdeq q1 = Some (Some x, q2) /\ hd_error vs = Some x /\
    enqueue_all renq [v2; v3] q2 = Some ([true; false], q3).
Proof.
  intros Hlen.
  apply (capacity_bound_run renq rdeq rrep unwrapped Capacity
           (rrep_length dflt Capacity)
           (ring_enq_room dflt Capacity Hcap)
           (ring_enq_full dflt Capacity Hcap)
           (ring_deq_some dflt moved Capacity Hcap)
           vs v1 v2 v3 0 0 rnew (ring_rep_new dflt Capacity Hcap) Hlen
           (capacity_pos _ Hcap)).
  unfold unwrapped. pose proof capacity_lt_modulus. lia.
Qed.
End Runs.


(** ** Outcomes and observers on reachable states *)

Section Outcomes.
Context {T : Type}.
Variable dflt : T.
Variable moved : T -> T.
Variable Capacity : Z.
Hypothesis Hcap : valid_capacity Capacity.

Abbreviation mreach := (mpmc_reach dflt moved Capacity).
Abbreviation rreach := (ring_reach dflt moved Capacity).

(** The slot array keeps its length, whatever the capacity. *)
Lemma mpmc_reach_slots E D (q : MPMC.MPMCQueue) :
  mreach E D q -> length (MPMC.slots_ q) = Z.to_nat Capacity.
Proof.
  pose proof (capacity_pos _ Hcap).
  induction 1 as [|E D q fuel v b q' _ IH Hcall
                  |E D q fuel r b r' q' _ IH Hcall
                  |E D q fuel o q' _ IH Hcall].
  - apply mpmc_new_length. lia.
  - apply mpmc_enqueue_returns in Hcall as [[_ ->]|[_ ->]]; [|assumption].
    simpl. rewrite length_insert. assumption.
  - apply mpmc_dequeue_returns in Hcall as [(_ & _ & ->)|(_ & _ & ->)]; [|assumption].
    simpl. rewrite length_insert. assumption.
  - apply mpmc_dequeue_opt_returns in Hcall as [[_ ->]|[_ ->]]; [|assumption].
    simpl. rewrite length_insert. assumption.
Qed.

(** *** Full and empty are the only failures *)

Lemma mpmc_enqueue_outcome E D (q : MPMC.MPMCQueue) fuel v :
  2 <= Capacity -> mreach E D q ->
  exists b q', MPMC.enqueue dflt Capacity (S fuel) q v = Some (b, q') /\
    (b = false <-> wrap (MPMC.head_ q - MPMC.tail_ q) = Capacity).
Proof.
  intros H2 Hreach.
  destruct (mpmc_reach_rep dflt moved Capacity Hcap E D q H2 Hreach) as [xs R].
  pose proof (mpmc_rep_range _ _ _ _ _ _ R) as Hrange.
  rewrite (mrep_head _ _ _ _ _ _ R), (mrep_tail _ _ _ _ _ _ R).
  rewrite (wrap_diff_count _ Hcap) by assumption.
  destruct (Z.eq_dec (E - D) Capacity) as [Hfull|Hroom].
  - exists false, q. split; [|tauto].
    apply (mpmc_enqueue_full dflt Capacity Hcap E D xs); assumption.
  - destruct (mpmc_enqueue_room dflt Capacity Hcap E D xs q fuel v R ltac:(lia)) as [Hrun _].
    eexists true, _. split; [exact Hrun|]. split; [discriminate|contradiction].
Qed.

Lemma mpmc_dequeue_outcome E D (q : MPMC.MPMCQueue) fuel r :
  2 <= Capacity -> mreach E D q ->
  exists b r' q', MPMC.dequeue dflt moved Capacity (S fuel) q r = Some (b, r', q') /\
    (b = false <-> MPMC.head_ q = MPMC.tail_ q).
Proof.
  intros H2 Hreach.
  destruct (mpmc_reach_rep dflt moved Capacity Hcap E D q H2 Hreach) as [xs R].
  pose proof (mpmc_rep_range _ _ _ _ _ _ R) as Hrange.
  pose proof (mrep_length _ _ _ _ _ _ R) as Hlen.
  rewrite (mrep_head _ _ _ _ _ _ R), (mrep_tail _ _ _ _ _ _ R).
  pose proof (wrap_eq_count _ Hcap E D Hrange) as Heq.
  destruct xs as [|x xs]; simpl in Hlen.
  - exists false, r, q. split; [|split; [intros _; apply Heq; lia|reflexivity]].
    apply (mpmc_dequeue_none dflt moved Capacity Hcap E D); assumption.
  - destruct (mpmc_dequeue_some dflt moved Capacity Hcap E D x xs q fuel r R) as [Hrun _].
    eexists true, _, _. split; [exact Hrun|].
    split; [discriminate|]. intros Hw. apply Heq in Hw. lia.
Qed.

Lemma ring_enqueue_outcome E D (q : Ring.RingBuffer) v :
  rreach E D q ->
  fst (Ring.try_enqueue Capacity q v) = false <->
  wrap (Ring.head_ q - Ring.tail_ q) = Capacity.
Proof.
  intros Hreach.
  destruct (ring_reach_rep dflt moved Capacity Hcap E D q Hreach) as [xs R].
  pose proof (ring_rep_range _ _ _ _ _ _ R) as Hrange.
  rewrite (rrep_head _ _ _ _ _ _ R), (rrep_tail _ _ _ _ _ _ R).
  rewrite (wrap_diff_count _ Hcap) by assumption.
  destruct (Z.eq_dec (E - D) Capacity) as [Hfull|Hroom].
  - rewrite (ring_try_enqueue_full dflt Capacity Hcap E D xs q v R Hfull). tauto.
  - destruct (ring_try_enqueue_room dflt Capacity Hcap E D xs q v R ltac:(lia))
      as (q' & -> & _).
    simpl. split; [discriminate|contradiction].
Qed.

Lemma ring_dequeue_outcome E D (q : Ring.RingBuffer) :
  rreach E D q -> E < modulus ->
  fst (Ring.try_dequeue_opt dflt moved Capacity q) = None <->
  Ring.head_ q = Ring.tail_ q.
Proof.
  intros Hreach HE.
  destruct (ring_reach_rep dflt moved Capacity Hcap E D q Hreach) as [xs R].
  pose proof (ring_rep_range _ _ _ _ _ _ R) as Hrange.
  pose proof (rrep_length _ _ _ _ _ _ R) as Hlen.
  rewrite (rrep_head _ _ _ _ _ _ R), (rrep_tail _ _ _ _ _ _ R).
  rewrite (wrap_eq_count _ Hcap) by assumption.
  destruct xs as [|x xs]; simpl in Hlen.
  - rewrite (ring_try_dequeue_none dflt moved Capacity E D q R). simpl.
    split; [lia|reflexivity].
  - destruct (ring_try_dequeue_some dflt moved Capacity Hcap E D x xs q R HE)
      as (q' & -> & _).
    simpl. split; [discriminate|lia].
Qed.

(** *** The counters *)

Lemma counters_unwrapped E D :
  0 <= D -> 0 <= E - D <= Capacity -> E < modulus ->
  wrap D <= wrap E /\ wrap E - wrap D <= Capacity.
Proof. intros HD HED HE. rewrite !wrap_small by lia. lia. Qed.

Lemma mpmc_counters E D (q : MPMC.MPMCQueue) :
  2 <= Capacity -> mreach E D q ->
  wrap (MPMC.head_ q - MPMC.tail_ q) <= Capacity /\
  (E < modulus ->
   MPMC.tail_ q <= MPMC.head_ q /\ MPMC.head_ q - MPMC.tail_ q <= Capacity).
Proof.
  intros H2 Hreach.
  destruct (mpmc_reach_rep dflt moved Capacity Hcap E D q H2 Hreach) as [xs R].
  pose proof (mpmc_rep_range _ _ _ _ _ _ R) as Hrange.
  rewrite (mrep_head _ _ _ _ _ _ R), (mrep_tail _ _ _ _ _ _ R).
  rewrite (wrap_diff_count _ Hcap) by assumption.
  split; [lia|]. apply counters_unwrapped; [apply (mrep_nonneg _ _ _ _ _ _ R)|assumption].
Qed.

Lemma ring_counters E D (q : Ring.RingBuffer) :
  rreach E D q ->
  wrap (Ring.head_ q - Ring.tail_ q) <= Capacity /\
  (E < modulus ->
   Ring.tail_ q <= Ring.head_ q /\ Ring.head_ q - Ring.tail_ q <= Capacity).
Proof.
  intros Hreach.
  destruct (ring_reach_rep dflt moved Capacity Hcap E D q Hreach) as [xs R].
  pose proof (ring_rep_range _ _ _ _ _ _ R) as Hrange.
  rewrite (rrep_head _ _ _ _ _ _ R), (rrep_tail _ _ _ _ _ _ R).
  rewrite (wrap_diff_count _ Hcap) by assumption.
  split; [lia|]. apply counters_unwrapped; [apply (rrep_nonneg _ _ _ _ _ _ R)|assumption].
Qed.

(** *** [size], [empty] and [capacity] *)

(** [size()] of the ring buffer is the wrapped difference: it counts
    the stored elements in every reachable state. *)
Lemma ring_observers E D (q : Ring.RingBuffer) :
  rreach E D q ->
  Ring.empty q = (Ring.size q =? 0) /\
  Ring.size q <= Ring.capacity Capacity q /\
  Ring.size q = E - D /\
  (E < modulus -> Ring.size q = Z.max 0 (Ring.head_ q - Ring.tail_ q)).
Proof.
  intros Hreach.
  destruct (ring_reach_rep dflt moved Capacity Hcap E D q Hreach) as [xs R].
  pose proof (ring_rep_range _ _ _ _ _ _ R) as Hrange.
  unfold Ring.empty, Ring.size, Ring.capacity.
  rewrite (rrep_head _ _ _ _ _ _ R), (rrep_tail _ _ _ _ _ _ R).
  rewrite (wrap_diff_count _ Hcap) by assumption.
  repeat split; try lia.
  intros HE. pose proof (rrep_nonneg _ _ _ _ _ _ R).
  rewrite !wrap_small by lia. lia.
Qed.

(** [full()] of the ring buffer is exact in every reachable state. *)
Lemma ring_full_exact E D (q : Ring.RingBuffer) :
  rreach E D q -> Ring.full Capacity q = (E - D =? Capacity).
Proof.
  intros Hreach.
  destruct (ring_observers E D q Hreach) as (_ & Hle & Hsize & _).
  unfold Ring.full, Ring.capacity in *. rewrite Hsize in *.
  destruct (E - D >=? Capacity) eqn:H1, (E - D =? Capacity) eqn:H2; try reflexivity; lia.
Qed.

(** [size()] of the sequenced-slot queue is the clamped difference. *)
Lemma mpmc_observers E D (q : MPMC.MPMCQueue) :
  2 <= Capacity -> mreach E D q ->
  MPMC.size q = Z.max 0 (MPMC.head_ q - MPMC.tail_ q) /\
  MPMC.size q <= MPMC.capacity Capacity q /\
  (E < modulus -> MPMC.empty q = (MPMC.size q =? 0) /\ MPMC.size q = E - D).
Proof.
  intros H2 Hreach.
  destruct (mpmc_reach_rep dflt moved Capacity Hcap E D q H2 Hreach) as [xs R].
  pose proof (mpmc_rep_range _ _ _ _ _ _ R) as Hrange.
  pose proof (mrep_nonneg _ _ _ _ _ _ R) as HD.
  unfold MPMC.empty, MPMC.size, MPMC.capacity.
  rewrite (mrep_head _ _ _ _ _ _ R), (mrep_tail _ _ _ _ _ _ R).
  pose proof (wrap_range E). pose proof (wrap_range D).
  pose proof (wrap_diff_count _ Hcap E D Hrange) as Hd.
  destruct (wrap E >=? wrap D) eqn:Hge.
  - assert (wrap (wrap E - wrap D) = wrap E - wrap D) as Hs
      by (apply wrap_small; lia).
    rewrite Hs in *. split; [lia|]. split; [lia|]. intros _. split; [|lia].
    destruct (wrap E =? wrap D) eqn:E1, (wrap E - wrap D =? 0) eqn:E2; try reflexivity; lia.
  - split; [lia|]. split; [lia|]. intros HE.
    rewrite !wrap_small in Hge by lia. lia.
Qed.
End Outcomes.


(** ** Long runs: the producer counter wraps *)

Section LongRuns.
Context {T : Type}.
Variable dflt : T.
Variable moved : T -> T.
Variable Capacity : Z.
Hypothesis Hcap : valid_capacity Capacity.

Lemma mpmc_reachable_new : mpmc_reachable dflt moved Capacity (MPMC.new_queue dflt Capacity).
Proof. exists 0, 0. constructor. Qed.

Lemma mpmc_reachable_enqueue (q : MPMC.MPMCQueue) fuel v b q' :
  mpmc_reachable dflt moved Capacity q ->
  MPMC.enqueue dflt Capacity fuel q v = Some (b, q') ->
  mpmc_reachable dflt moved Capacity q'.
Proof. intros (E & D & H) Hcall. eexists _, _. eapply mreach_enqueue; eassumption. Qed.

(** Any number of enqueue/dequeue pairs can be run on the
    sequenced-slot queue. *)
Lemma mpmc_reach_pairs n :
  0 <= n ->
  exists q, mpmc_reach dflt moved Capacity n n q /\ mpmc_rep dflt Capacity n n [] q.
Proof.
  revert n. apply natlike_ind.
  - exists (MPMC.new_queue dflt Capacity). split; [constructor|apply mpmc_rep_new, Hcap].
  - intros n Hn (q & Hreach & R). pose proof (capacity_pos _ Hcap).
    destruct (mpmc_enqueue_room dflt Capacity Hcap n n [] q O dflt R ltac:(lia))
      as [Hrun R1].
    pose proof (mreach_enqueue dflt moved Capacity _ _ _ _ _ _ _ Hreach Hrun) as Hreach1.
    simpl app in R1.
    destruct (mpmc_dequeue_some dflt moved Capacity Hcap _ _ _ _ _ O dflt R1)
      as [Hrun2 R2].
    pose proof (mreach_dequeue dflt moved Capacity _ _ _ _ _ _ _ _ Hreach1 Hrun2) as Hreach2.
    eexists. split; [exact Hreach2|exact R2].
Qed.

(** One enqueue after [modulus - 1] pairs wraps the producer counter
    to zero; the consumer counter stays at the largest [size_t]. *)
Lemma mpmc_reach_wrapped v :
  exists q, mpmc_reach dflt moved Capacity modulus (modulus - 1) q /\
            mpmc_rep dflt Capacity modulus (modulus - 1) [v] q /\
            MPMC.head_ q = 0 /\ MPMC.tail_ q = modulus - 1.
Proof.
  destruct (mpmc_reach_pairs (modulus - 1) ltac:(discriminate)) as (q & Hreach & R).
  pose proof (capacity_pos _ Hcap).
  destruct (mpmc_enqueue_room dflt Capacity Hcap _ _ [] q O v R ltac:(lia))
    as [Hrun R1].
  pose proof (mreach_enqueue dflt moved Capacity _ _ _ _ _ _ _ Hreach Hrun) as Hreach1.
  simpl app in R1. cbv iota in Hreach1.
  replace (modulus - 1 + 1) with modulus in * by lia.
  eexists. split; [exact Hreach1|]. split; [exact R1|].
  rewrite (mrep_head _ _ _ _ _ _ R1), (mrep_tail _ _ _ _ _ _ R1).
  split; reflexivity.
Qed.

(** The same on the ring buffer, as long as the counters have not
    wrapped. *)
Lemma ring_reach_pairs n :
  0 <= n < modulus ->
  exists q, ring_reach dflt moved Capacity n n q /\ ring_rep dflt Capacity n n [] q.
Proof.
  intros [Hn Hlt]. revert n Hn Hlt. apply (natlike_ind (fun n => n < modulus -> _)).
  - intros _. exists (Ring.new_buffer dflt Capacity).
    split; [constructor|apply ring_rep_new, Hcap].
  - intros n Hn IH Hlt. destruct (IH ltac:(lia)) as (q & Hreach & R).
    pose proof (capacity_pos _ Hcap).
    destruct (ring_try_enqueue_room dflt Capacity Hcap n n [] q dflt R ltac:(lia))
      as (q1 & Hrun & R1).
    pose proof (rreach_enqueue dflt moved Capacity _ _ _ _ _ _ Hreach Hrun) as Hreach1.
    simpl app in R1.
    destruct (ring_try_dequeue_some dflt moved Capacity Hcap _ _ _ _ _ R1 ltac:(lia))
      as (q2 & Hrun2 & R2).
    pose proof (rreach_dequeue_opt dflt moved Capacity _ _ _ _ _ Hreach1 Hrun2) as Hreach2.
    exists q2. split; [exact Hreach2|exact R2].
Qed.

Lemma ring_reach_wrapped v :
  exists q, ring_reach dflt moved Capacity modulus (modulus - 1) q /\
            ring_rep dflt Capacity modulus (modulus - 1) [v] q /\
            Ring.head_ q = 0 /\ Ring.tail_ q = modulus - 1.
Proof.
  destruct (ring_reach_pairs (modulus - 1) ltac:(split; [discriminate|reflexivity]))
    as (q & Hreach & R).
  pose proof (capacity_pos _ Hcap).
  destruct (ring_try_enqueue_room dflt Capacity Hcap _ _ [] q v R ltac:(lia))
    as (q1 & Hrun & R1).
  pose proof (rreach_enqueue dflt moved Capacity _ _ _ _ _ _ Hreach Hrun) as Hreach1.
  simpl app in R1. cbv iota in Hreach1.
  replace (modulus - 1 + 1) with modulus in * by lia.
  exists q1. split; [exact Hreach1|]. split; [exact R1|].
  rewrite (rrep_head _ _ _ _ _ _ R1), (rrep_tail _ _ _ _ _ _ R1).
  split; reflexivity.
Qed.

(** Once the producer counter has wrapped below the consumer counter,
    [try_dequeue] reports an empty buffer. *)
Lemma ring_dequeue_blocked (q : Ring.RingBuffer) :
  Ring.head_ q <= Ring.tail_ q ->
  Ring.try_dequeue_opt dflt moved Capacity q = (None, q).
Proof.
  intros Hle. rewrite ring_try_dequeue_opt_eq.
  destruct (Ring.head_ q <=? Ring.tail_ q) eqn:E; [reflexivity|lia].
Qed.
End LongRuns.


(** ** What one call writes *)

Section Frame.
Context {T : Type}.
Variable dflt : T.
Variable moved : T -> T.
Variable Capacity : Z.

Lemma only_cell_changed_insert {A} (l : list A) i x :
  only_cell_changed i l (<[Z.to_nat i := x]> l).
Proof.
  split; [apply length_insert|].
  intros j Hj. apply list_lookup_insert_ne. congruence.
Qed.

Lemma mpmc_enqueue_frame fuel (q : @MPMC.MPMCQueue T) v b q' :
  MPMC.enqueue dflt Capacity fuel q v = Some (b, q') ->
  if b then
    MPMC.head_ q' = wrap (MPMC.head_ q + 1) /\
    MPMC.tail_ q' = MPMC.tail_ q /\
    only_cell_changed (Z.land (MPMC.head_ q) (Capacity - 1))
      (MPMC.slots_ q) (MPMC.slots_ q') /\
    MPMC.slots_ q' =
      <[Z.to_nat (Z.land (MPMC.head_ q) (Capacity - 1)) :=
          {| MPMC.sequence := wrap (MPMC.head_ q + 1); MPMC.element := v |}]>
        (MPMC.slots_ q)
  else q' = q.
Proof.
  intros Hcall. apply mpmc_enqueue_returns in Hcall as [[-> ->]|[-> ->]]; [|reflexivity].
  simpl. split; [reflexivity|]. split; [reflexivity|].
  split; [apply only_cell_changed_insert|reflexivity].
Qed.

Lemma mpmc_dequeue_frame fuel (q : @MPMC.MPMCQueue T) r b r' q' :
  MPMC.dequeue dflt moved Capacity fuel q r = Some (b, r', q') ->
  let i := Z.land (MPMC.tail_ q) (Capacity - 1) in
  if b then
    r' = MPMC.element (MPMC.slot_at dflt (MPMC.slots_ q) i) /\
    MPMC.tail_ q' = wrap (MPMC.tail_ q + 1) /\
    MPMC.head_ q' = MPMC.head_ q /\
    only_cell_changed i (MPMC.slots_ q) (MPMC.slots_ q') /\
    MPMC.slots_ q' =
      <[Z.to_nat i :=
          {| MPMC.sequence := wrap (MPMC.tail_ q + Capacity);
             MPMC.element := moved (MPMC.element (MPMC.slot_at dflt (MPMC.slots_ q) i)) |}]>
        (MPMC.slots_ q)
  else r' = r /\ q' = q.
Proof.
  intros Hcall. cbv zeta.
  apply mpmc_dequeue_returns in Hcall as [(-> & -> & ->)|(-> & -> & ->)];
    [|split; reflexivity].
  simpl. split; [reflexivity|]. split; [reflexivity|]. split; [reflexivity|].
  split; [apply only_cell_changed_insert|reflexivity].
Qed.

Lemma mpmc_dequeue_opt_frame fuel (q : @MPMC.MPMCQueue T) o q' :
  MPMC.dequeue_opt dflt moved Capacity fuel q = Some (o, q') ->
  let i := Z.land (MPMC.tail_ q) (Capacity - 1) in
  match o with
  | Some x =>
      x = MPMC.element (MPMC.slot_at dflt (MPMC.slots_ q) i) /\
      MPMC.tail_ q' = wrap (MPMC.tail_ q + 1) /\
      MPMC.head_ q' = MPMC.head_ q /\
      only_cell_changed i (MPMC.slots_ q) (MPMC.slots_ q')
  | None => q' = q
  end.
Proof.
  intros Hcall. cbv zeta.
  apply mpmc_dequeue_opt_returns in Hcall as [(-> & ->)|(-> & ->)]; [|reflexivity].
  simpl. split; [reflexivity|]. split; [reflexivity|]. split; [reflexivity|].
  apply only_cell_changed_insert.
Qed.

Lemma ring_try_enqueue_frame (q : @Ring.RingBuffer T) v :
  let '(b, q') := Ring.try_enqueue Capacity q v in
  if b then
    Ring.head_ q' = wrap (Ring.head_ q + 1) /\
    Ring.tail_ q' = Ring.tail_ q /\
    only_cell_changed (Z.land (Ring.head_ q) (Capacity - 1))
      (Ring.buffer_ q) (Ring.buffer_ q') /\
    Ring.buffer_ q' =
      <[Z.to_nat (Z.land (Ring.head_ q) (Capacity - 1)) := v]> (Ring.buffer_ q)
  else q' = q.
Proof.
  unfold Ring.try_enqueue, Ring.mask_. cbv zeta.
  destruct (_ >? Capacity); [reflexivity|].
  simpl. split; [reflexivity|]. split; [reflexivity|].
  split; [apply only_cell_changed_insert|reflexivity].
Qed.

Lemma ring_try_dequeue_opt_frame (q : @Ring.RingBuffer T) :
  let i := Z.land (Ring.tail_ q) (Capacity - 1) in
  let '(o, q') := Ring.try_dequeue_opt dflt moved Capacity q in
  match o with
  | Some x =>
      x = Ring.buffer_at dflt (Ring.buffer_ q) i /\
      Ring.tail_ q' = wrap (Ring.tail_ q + 1) /\
      Ring.head_ q' = Ring.head_ q /\
      only_cell_changed i (Ring.buffer_ q) (Ring.buffer_ q') /\
      Ring.buffer_ q' = <[Z.to_nat i := moved x]> (Ring.buffer_ q)
  | None => q' = q
  end.
Proof.
  cbv zeta. rewrite ring_try_dequeue_opt_eq. cbv zeta.
  destruct (_ <=? _); [reflexivity|].
  simpl. split; [reflexivity|]. split; [reflexivity|]. split; [reflexivity|].
  split; [apply only_cell_changed_insert|reflexivity].
Qed.

Lemma ring_try_dequeue_frame (q : @Ring.RingBuffer T) r :
  let i := Z.land (Ring.tail_ q) (Capacity - 1) in
  let '(b, r', q') := Ring.try_dequeue dflt moved Capacity q r in
  if b then
    r' = Ring.buffer_at dflt (Ring.buffer_ q) i /\
    Ring.tail_ q' = wrap (Ring.tail_ q + 1) /\
    Ring.head_ q' = Ring.head_ q /\
    only_cell_changed i (Ring.buffer_ q) (Ring.buffer_ q') /\
    Ring.buffer_ q' = <[Z.to_nat i := moved r']> (Ring.buffer_ q)
  else r' = r /\ q' = q.
Proof.
  cbv zeta. rewrite ring_try_dequeue_forms.
  pose proof (ring_try_dequeue_opt_frame q) as H. cbv zeta in H.
  destruct (Ring.try_dequeue_opt dflt moved Capacity q) as [[x|] q'].
  - exact H.
  - split; [reflexivity|exact H].
Qed.

(** ** Sequence numbers of the slots *)

Hypothesis Hcap : valid_capacity Capacity.

Lemma mpmc_head_slot_in_range E D (q : @MPMC.MPMCQueue T) x :
  mpmc_reach dflt moved Capacity E D q ->
  0 <= Z.land x (Capacity - 1) < Z.of_nat (length (MPMC.slots_ q)).
Proof.
  intros Hreach. rewrite (mpmc_reach_slots dflt moved Capacity Hcap E D q Hreach).
  pose proof (capacity_pos _ Hcap). rewrite Z2Nat.id by lia.
  apply land_mask_range, Hcap.
Qed.

Lemma mpmc_sequence_after_enqueue E D (q : @MPMC.MPMCQueue T) fuel v q' :
  mpmc_reach dflt moved Capacity E D q ->
  MPMC.enqueue dflt Capacity fuel q v = Some (true, q') ->
  MPMC.slot_at dflt (MPMC.slots_ q') (Z.land (MPMC.head_ q) (Capacity - 1)) =
    {| MPMC.sequence := wrap (MPMC.head_ q + 1); MPMC.element := v |}.
Proof.
  intros Hreach Hcall.
  apply mpmc_enqueue_returns in Hcall as [[_ ->]|[? _]]; [|discriminate].
  simpl. apply mpmc_slot_at_insert_eq. eapply mpmc_head_slot_in_range, Hreach.
Qed.

Lemma mpmc_sequence_after_dequeue E D (q : @MPMC.MPMCQueue T) fuel r r' q' :
  mpmc_reach dflt moved Capacity E D q ->
  MPMC.dequeue dflt moved Capacity fuel q r = Some (true, r', q') ->
  MPMC.sequence (MPMC.slot_at dflt (MPMC.slots_ q')
                   (Z.land (MPMC.tail_ q) (Capacity - 1))) =
    wrap (MPMC.tail_ q + Capacity).
Proof.
  intros Hreach Hcall.
  apply mpmc_dequeue_returns in Hcall as [(_ & _ & ->)|(? & _)]; [|discriminate].
  simpl. rewrite mpmc_slot_at_insert_eq; [reflexivity|].
  eapply mpmc_head_slot_in_range, Hreach.
Qed.

(** In a queue of at least two slots, a filled position [j] carries
    [j + 1] and an open one carries the index of the producer expected
    to write it. *)
Lemma mpmc_sequence_invariant E D (q : @MPMC.MPMCQueue T) j :
  2 <= Capacity ->
  mpmc_reach dflt moved Capacity E D q ->
  D <= j < D + Capacity ->
  MPMC.sequence (MPMC.slot_at dflt (MPMC.slots_ q) (j mod Capacity)) =
    wrap (if j <? E then j + 1 else j).
Proof.
  intros H2 Hreach Hj.
  destruct (mpmc_reach_rep dflt moved Capacity Hcap E D q H2 Hreach) as [xs R].
  destruct (j <? E) eqn:HjE.
  - apply (mrep_filled _ _ _ _ _ _ R). lia.
  - apply (mrep_free _ _ _ _ _ _ R). lia.
Qed.

(** ** The destructor of the ring buffer *)

(** While the running index has not met [tail], every pass destroys
    the cell at the running index, the first of them [head & mask_]. *)
Lemma ring_destructor_passes (fuel : nat) : forall head tail,
  (forall k, 0 <= k < Z.of_nat fuel -> wrap (head + k) <> tail) ->
  wrap head = head ->
  Ring.destructor_loop Capacity fuel head tail =
    (map (fun k => Z.land (wrap (head + k)) (Capacity - 1)) (seqZ 0 (Z.of_nat fuel)),
     wrap (head + Z.of_nat fuel) =? tail).
Proof.
  induction fuel as [|fuel IH]; intros head tail Hne Hhead.
  - simpl. rewrite Z.add_0_r, Hhead. reflexivity.
  - cbn [Ring.destructor_loop].
    pose proof (Hne 0 ltac:(lia)) as H0. rewrite Z.add_0_r, Hhead in H0.
    destruct (head =? tail) eqn:E; [lia|]. cbn [negb].
    rewrite IH.
    + rewrite (seqZ_cons 0 (Z.of_nat (S fuel))) by lia. cbn [map]. rewrite Z.add_0_r, Hhead.
      unfold Ring.mask_. f_equal.
      * f_equal. replace (Z.pred (Z.of_nat (S fuel))) with (Z.of_nat fuel) by lia.
        rewrite <- (fmap_add_seqZ 1 0). rewrite <- list_fmap_compose.
        apply list_fmap_ext. intros _ k _. simpl.
        rewrite wrap_add_l. f_equal. f_equal. lia.
      * rewrite wrap_add_l. f_equal. f_equal. lia.
    + intros k Hk. rewrite wrap_add_l.
      replace (head + 1 + k) with (head + (k + 1)) by lia. apply Hne. lia.
    + apply wrap_wrap.
Qed.
End Frame.


(** ** Runs of many cycles *)

Lemma fill_drain_cycles_app {Q T : Type} (enq : Q -> T -> option (bool * Q))
    (deq : Q -> option (option T * Q)) (c1 c2 : list (list T)) : forall q,
  fill_drain_cycles enq deq (c1 ++ c2) q =
    match fill_drain_cycles enq deq c1 q with
    | None => None
    | Some (out1, q1) =>
        match fill_drain_cycles enq deq c2 q1 with
        | None => None
        | Some (out2, q2) => Some (out1 ++ out2, q2)
        end
    end.
Proof.
  induction c1 as [|vs c1 IH]; intros q; simpl.
  - destruct (fill_drain_cycles enq deq c2 q) as [[out2 q2]|]; reflexivity.
  - destruct (fill_drain enq deq vs q) as [[[bs rs] q1]|]; [|reflexivity].
    rewrite IH.
    destruct (fill_drain_cycles enq deq c1 q1) as [[out1 q2]|]; [|reflexivity].
    destruct (fill_drain_cycles enq deq c2 q2) as [[out2 q3]|]; reflexivity.
Qed.

Lemma total_length_repeat_one {T : Type} (v : T) (n : nat) :
  total_length (repeat [v] n) = Z.of_nat n.
Proof.
  unfold total_length. f_equal.
  induction n as [|n IH]; simpl; [reflexivity|]. rewrite IH. reflexivity.
Qed.

(** A ring buffer of one cell gives [n] cycles back and loses the value
    of the next one, when that next enqueue is the one that wraps the
    producer counter. *)
Lemma ring_one_cell_wraps {T : Type} (dflt : T) (moved : T -> T) (v : T) (n : nat) :
  Z.of_nat n = modulus - 1 ->
  exists q',
    fill_drain_cycles (ring_enq 1) (ring_deq dflt moved 1) (repeat [v] (S n))
      (Ring.new_buffer dflt 1) =
    Some (repeat ([true], [Some v]) n ++ [([true], [None])], q').
Proof.
  intros Hn.
  assert (Hcap : valid_capacity 1) by (repeat split).
  change (repeat [v] (S n)) with ([v] :: repeat [v] n).
  rewrite repeat_cons, fill_drain_cycles_app.
  destruct (ring_cycles_run dflt moved 1 Hcap (repeat [v] n)) as (q1 & Hrun & R1).
  { clear Hn. induction n as [|n IH]; simpl; constructor; [simpl; lia|exact IH]. }
  { rewrite total_length_repeat_one, Hn. lia. }
  rewrite Hrun, map_repeat. simpl length. simpl map. simpl repeat.
  rewrite total_length_repeat_one, Hn in R1.
  destruct (ring_try_enqueue_room dflt 1 Hcap _ _ [] q1 v R1 ltac:(lia))
    as (q2 & Henq & R2).
  simpl app in R2. replace (modulus - 1 + 1) with modulus in R2 by lia.
  assert (Hdeq : Ring.try_dequeue_opt dflt moved 1 q2 = (None, q2)).
  { apply ring_dequeue_blocked.
    rewrite (rrep_head _ _ _ _ _ _ R2), (rrep_tail _ _ _ _ _ _ R2).
    discriminate. }
  exists q2. cbn [fill_drain_cycles]. unfold fill_drain.
  cbn [enqueue_all]. unfold ring_enq. rewrite Henq.
  cbn [length dequeue_n]. unfold ring_deq. rewrite Hdeq. reflexivity.
Qed.


(** * The claims *)

(** ** Capacity bound *)

(** C1 (fails on the code for [MPMCQueue<T, 1>]).  Capacity 1 passes
    both [static_assert]s, yet on a newly constructed
    [MPMCQueue<T, 1>] the second [enqueue] in a row also returns
    [true]: the slot's sequence number after the first enqueue,
    [head + 1], is the very number the next producer waits for, so the
    queue never reports full and the first value is overwritten. *)
Theorem mpmc_capacity_one_never_full :
  forall (T : Type) (dflt : T) (fuel : nat) (v1 v2 : T),
    valid_capacity 1 /\
    enqueue_all (mpmc_enq dflt 1 (S fuel)) [v1; v2] (MPMC.new_queue dflt 1) =
      Some ([true; true],
            {| MPMC.tail_ := 0;
               MPMC.head_ := 2;
               MPMC.slots_ := [{| MPMC.sequence := 2; MPMC.element := v2 |}] |}).
Proof.
  intros T dflt fuel v1 v2. split; [repeat split|].
  reflexivity.
Qed.

(** ** FIFO order *)

(** C2.  For every list [vs] of at most [Capacity] values, enqueueing
    them one after another into a newly constructed queue succeeds
    every time, and the [length vs] dequeues that follow all succeed
    and return the values of [vs] in the order they were enqueued.
    Holds for the sequenced-slot queue (with any fuel for its loops)
    and for the ring buffer. *)
Theorem fifo_order_sequential :
  forall (T : Type) (dflt : T) (moved : T -> T) (Capacity : Z) (vs : list T),
    valid_capacity Capacity ->
    Z.of_nat (length vs) <= Capacity ->
    (forall fuel, exists q1 q2,
        enqueue_all (mpmc_enq dflt Capacity (S fuel)) vs (MPMC.new_queue dflt Capacity) =
          Some (repeat true (length vs), q1) /\
        dequeue_n (mpmc_deq dflt moved Capacity (S fuel)) (length vs) q1 =
          Some (map Some vs, q2)) /\
    (exists q1 q2,
        enqueue_all (ring_enq Capacity) vs (Ring.new_buffer dflt Capacity) =
          Some (repeat true (length vs), q1) /\
        dequeue_n (ring_deq dflt moved Capacity) (length vs) q1 =
          Some (map Some vs, q2)).
Proof.
  intros T dflt moved Capacity vs Hcap Hlen. split.
  - intros fuel. apply mpmc_fifo_run; assumption.
  - apply ring_fifo_run; assumption.
Qed.

Lemma fifo_order_sequential_witness :
  (forall fuel, exists q1 q2,
      enqueue_all (mpmc_enq 0 4 (S fuel)) [10; 20; 30] (MPMC.new_queue 0 4) =
        Some ([true; true; true], q1) /\
      dequeue_n (mpmc_deq 0 (fun x => x) 4 (S fuel)) 3 q1 =
        Some ([Some 10; Some 20; Some 30], q2)) /\
  (exists q1 q2,
      enqueue_all (ring_enq 4) [10; 20; 30] (Ring.new_buffer 0 4) =
        Some ([true; true; true], q1) /\
      dequeue_n (ring_deq 0 (fun x => x) 4) 3 q1 =
        Some ([Some 10; Some 20; Some 30], q2)).
Proof.
  apply (fifo_order_sequential Z 0 (fun x => x) 4 [10; 20; 30]).
  - repeat split.
  - simpl. lia.
Defined.

(** ** Full and empty *)

(** C3 (fails on the code for [MPMCQueue<T, 1>]).  After one enqueue
    the queue of capacity 1 is full, [head - tail = capacity], and the
    next [enqueue] still returns [true]; in the state it leaves,
    [dequeue] neither succeeds nor reports empty: its loop never
    returns, whatever the fuel. *)
Theorem mpmc_capacity_one_enqueue_on_full :
  forall (T : Type) (dflt : T) (moved : T -> T) (fuel : nat) (v1 v2 r : T),
    MPMC.enqueue dflt 1 (S fuel) (MPMC.new_queue dflt 1) v1 =
      Some (true, {| MPMC.tail_ := 0; MPMC.head_ := 1;
                     MPMC.slots_ := [{| MPMC.sequence := 1; MPMC.element := v1 |}] |}) /\
    wrap (MPMC.head_ {| MPMC.tail_ := 0; MPMC.head_ := 1;
                        MPMC.slots_ := [{| MPMC.sequence := 1; MPMC.element := v1 |}] |} -
          MPMC.tail_ {| MPMC.tail_ := 0; MPMC.head_ := 1;
                        MPMC.slots_ := [{| MPMC.sequence := 1; MPMC.element := v1 |}] |}) =
      MPMC.capacity 1 {| MPMC.tail_ := 0; MPMC.head_ := 1;
                         MPMC.slots_ := [{| MPMC.sequence := 1; MPMC.element := v1 |}] |} /\
    MPMC.enqueue dflt 1 (S fuel)
        {| MPMC.tail_ := 0; MPMC.head_ := 1;
           MPMC.slots_ := [{| MPMC.sequence := 1; MPMC.element := v1 |}] |} v2 =
      Some (true, {| MPMC.tail_ := 0; MPMC.head_ := 2;
                     MPMC.slots_ := [{| MPMC.sequence := 2; MPMC.element := v2 |}] |}) /\
    MPMC.dequeue dflt moved 1 fuel
        {| MPMC.tail_ := 0; MPMC.head_ := 2;
           MPMC.slots_ := [{| MPMC.sequence := 2; MPMC.element := v2 |}] |} r = None.
Proof.
  intros T dflt moved fuel v1 v2 r.
  split; [reflexivity|]. split; [reflexivity|]. split; [reflexivity|].
  induction fuel as [|fuel IH]; [reflexivity|].
  rewrite mpmc_dequeue_step. exact IH.
Qed.

(** ** Sequence numbers *)

(** C4.  At construction slot [i] carries the sequence number [i]; in
    every reachable state, an [enqueue] that claims index [k = head_]
    leaves [k + 1] in slot [k & mask_], and a [dequeue] that claims
    index [k = tail_] leaves [k + Capacity] there (both in [size_t]
    arithmetic).  In every reachable state of a queue of at least two
    slots, the slot of an open position [j] carries [j], the index of
    the producer expected to write it, and the slot of a filled
    position carries [j + 1]. *)
Theorem mpmc_sequence_numbers :
  forall (T : Type) (dflt : T) (moved : T -> T) (Capacity : Z),
    valid_capacity Capacity ->
    (forall i, 0 <= i < Capacity ->
       MPMC.sequence (MPMC.slot_at dflt (MPMC.slots_ (MPMC.new_queue dflt Capacity)) i) = i) /\
    (forall E D q fuel v q',
       mpmc_reach dflt moved Capacity E D q ->
       MPMC.enqueue dflt Capacity fuel q v = Some (true, q') ->
       MPMC.sequence (MPMC.slot_at dflt (MPMC.slots_ q')
                        (Z.land (MPMC.head_ q) (MPMC.mask_ Capacity))) =
         wrap (MPMC.head_ q + 1)) /\
    (forall E D q fuel r r' q',
       mpmc_reach dflt moved Capacity E D q ->
       MPMC.dequeue dflt moved Capacity fuel q r = Some (true, r', q') ->
       MPMC.sequence (MPMC.slot_at dflt (MPMC.slots_ q')
                        (Z.land (MPMC.tail_ q) (MPMC.mask_ Capacity))) =
         wrap (MPMC.tail_ q + Capacity)) /\
    (forall E D q j,
       2 <= Capacity ->
       mpmc_reach dflt moved Capacity E D q ->
       D <= j < D + Capacity ->
       MPMC.sequence (MPMC.slot_at dflt (MPMC.slots_ q) (j mod Capacity)) =
         wrap (if j <? E then j + 1 else j)).
Proof.
  intros T dflt moved Capacity Hcap. repeat split.
  - intros i Hi. rewrite mpmc_new_slot by assumption. reflexivity.
  - intros E D q fuel v q' Hreach Hcall.
    unfold MPMC.mask_.
    rewrite (mpmc_sequence_after_enqueue dflt moved Capacity Hcap E D q fuel v q' Hreach Hcall).
    reflexivity.
  - intros E D q fuel r r' q' Hreach Hcall.
    apply (mpmc_sequence_after_dequeue dflt moved Capacity Hcap E D q fuel r r' q' Hreach Hcall).
  - intros E D q j H2 Hreach Hj.
    apply (mpmc_sequence_invariant dflt moved Capacity Hcap E D q j H2 Hreach Hj).
Qed.

Lemma mpmc_sequence_numbers_witness :
  MPMC.sequence (MPMC.slot_at 0 (MPMC.slots_ (MPMC.new_queue 0 4)) 3) = 3 /\
  MPMC.sequence
    (MPMC.slot_at 0
       (MPMC.slots_ (mpmc_after_enqueue 4 (MPMC.new_queue 0 4) 10))
       (Z.land (MPMC.head_ (MPMC.new_queue 0 4)) (MPMC.mask_ 4))) = wrap (0 + 1) /\
  MPMC.sequence
    (MPMC.slot_at 0
       (MPMC.slots_ (mpmc_after_dequeue 0 (fun x => x) 4
                       (mpmc_after_enqueue 4 (MPMC.new_queue 0 4) 10)))
       (Z.land (MPMC.tail_ (mpmc_after_enqueue 4 (MPMC.new_queue 0 4) 10)) (MPMC.mask_ 4))) =
    wrap (0 + 4) /\
  MPMC.sequence
    (MPMC.slot_at 0 (MPMC.slots_ (mpmc_after_enqueue 4 (MPMC.new_queue 0 4) 10)) (0 mod 4)) =
    wrap (if 0 <? 1 then 0 + 1 else 0).
Proof.
  destruct (mpmc_sequence_numbers Z 0 (fun x => x) 4 ltac:(repeat split))
    as (Hnew & Henq & Hdeq & Hinv).
  assert (R1 : mpmc_reach 0 (fun x => x) 4 1 0
                 (mpmc_after_enqueue 4 (MPMC.new_queue 0 4) 10)).
  { apply (mreach_enqueue 0 (fun x => x) 4 0 0 (MPMC.new_queue 0 4) 1%nat 10 true).
    - constructor.
    - reflexivity. }
  split; [apply Hnew; lia|].
  split.
  { apply (Henq 0 0 (MPMC.new_queue 0 4) 1%nat 10
             (mpmc_after_enqueue 4 (MPMC.new_queue 0 4) 10)); [constructor|reflexivity]. }
  split.
  { apply (Hdeq 1 0 (mpmc_after_enqueue 4 (MPMC.new_queue 0 4) 10) 1%nat 0 10
             (mpmc_after_dequeue 0 (fun x => x) 4
                (mpmc_after_enqueue 4 (MPMC.new_queue 0 4) 10))); [exact R1|reflexivity]. }
  apply (Hinv 1 0 (mpmc_after_enqueue 4 (MPMC.new_queue 0 4) 10) 0); [lia|exact R1|lia].
Defined.


(** ** Counters *)

(** C5 (counterexample).  Three reachable states that break the claim
    as stated: after [2^64 - 1] enqueue/dequeue pairs and one more
    enqueue the producer counter has wrapped to 0 below the consumer
    counter, in the sequenced-slot queue and in the ring buffer alike;
    and in [MPMCQueue<T, 1>] two enqueues in a row leave
    [head - tail = 2]. *)
Lemma counter_order_counterexample :
  (exists q, mpmc_reachable 0 (fun x => x) 2 q /\
             MPMC.head_ q = 0 /\ MPMC.tail_ q = modulus - 1 /\
             ~ MPMC.tail_ q <= MPMC.head_ q) /\
  (exists q, ring_reachable 0 (fun x => x) 2 q /\
             Ring.head_ q = 0 /\ Ring.tail_ q = modulus - 1 /\
             ~ Ring.tail_ q <= Ring.head_ q) /\
  (exists q, mpmc_reachable 0 (fun x => x) 1 q /\
             MPMC.head_ q = 2 /\ MPMC.tail_ q = 0 /\
             ~ MPMC.head_ q - MPMC.tail_ q <= MPMC.capacity 1 q).
Proof.
  assert (Hcap : valid_capacity 2) by (repeat split).
  split; [|split].
  - destruct (mpmc_reach_wrapped 0 (fun x => x) 2 Hcap 7) as (q & Hreach & _ & Hh & Ht).
    exists q. split; [exists modulus, (modulus - 1); exact Hreach|].
    rewrite Hh, Ht. repeat split. unfold modulus. lia.
  - destruct (ring_reach_wrapped 0 (fun x => x) 2 Hcap 7) as (q & Hreach & _ & Hh & Ht).
    exists q. split; [exists modulus, (modulus - 1); exact Hreach|].
    rewrite Hh, Ht. repeat split. unfold modulus. lia.
  - exists {| MPMC.tail_ := 0; MPMC.head_ := 2;
              MPMC.slots_ := [{| MPMC.sequence := 2; MPMC.element := 20 |}] |}.
    split; [|repeat split; unfold MPMC.capacity; simpl; lia].
    apply (mpmc_reachable_enqueue 0 (fun x => x) 1
             {| MPMC.tail_ := 0; MPMC.head_ := 1;
                MPMC.slots_ := [{| MPMC.sequence := 1; MPMC.element := 10 |}] |}
             1%nat 20 true); [|reflexivity].
    apply (mpmc_reachable_enqueue 0 (fun x => x) 1 (MPMC.new_queue 0 1) 1%nat 10 true);
      [|reflexivity].
    apply mpmc_reachable_new.
Qed.

(** C5 (amended).  In every state of the ring buffer, and of a
    sequenced-slot queue of at least two slots, produced by a finite
    sequence of calls on a newly constructed queue, the difference
    [head - tail] computed in [size_t] arithmetic is at most the
    capacity; and as long as fewer than [2^64] enqueues have succeeded
    ([E < modulus], the producer counter has not wrapped),
    [tail <= head] and [head - tail <= Capacity]. *)
Theorem counters_bounded :
  forall (T : Type) (dflt : T) (moved : T -> T) (Capacity : Z),
    valid_capacity Capacity ->
    (forall E D q,
       ring_reach dflt moved Capacity E D q ->
       wrap (Ring.head_ q - Ring.tail_ q) <= Capacity /\
       (E < modulus ->
        Ring.tail_ q <= Ring.head_ q /\ Ring.head_ q - Ring.tail_ q <= Capacity)) /\
    (2 <= Capacity ->
     forall E D q,
       mpmc_reach dflt moved Capacity E D q ->
       wrap (MPMC.head_ q - MPMC.tail_ q) <= Capacity /\
       (E < modulus ->
        MPMC.tail_ q <= MPMC.head_ q /\ MPMC.head_ q - MPMC.tail_ q <= Capacity)).
Proof.
  intros T dflt moved Capacity Hcap. split.
  - intros E D q Hreach. apply (ring_counters dflt moved Capacity Hcap E D q Hreach).
  - intros H2 E D q Hreach. apply (mpmc_counters dflt moved Capacity Hcap E D q H2 Hreach).
Qed.

Lemma counters_bounded_witness :
  (wrap (Ring.head_ (snd (Ring.try_enqueue 4 (Ring.new_buffer 0 4) 10)) -
         Ring.tail_ (snd (Ring.try_enqueue 4 (Ring.new_buffer 0 4) 10))) <= 4 /\
   (1 < modulus ->
    Ring.tail_ (snd (Ring.try_enqueue 4 (Ring.new_buffer 0 4) 10)) <=
      Ring.head_ (snd (Ring.try_enqueue 4 (Ring.new_buffer 0 4) 10)) /\
    Ring.head_ (snd (Ring.try_enqueue 4 (Ring.new_buffer 0 4) 10)) -
      Ring.tail_ (snd (Ring.try_enqueue 4 (Ring.new_buffer 0 4) 10)) <= 4)) /\
  (wrap (MPMC.head_ (mpmc_after_enqueue 4 (MPMC.new_queue 0 4) 10) -
         MPMC.tail_ (mpmc_after_enqueue 4 (MPMC.new_queue 0 4) 10)) <= 4 /\
   (1 < modulus ->
    MPMC.tail_ (mpmc_after_enqueue 4 (MPMC.new_queue 0 4) 10) <=
      MPMC.head_ (mpmc_after_enqueue 4 (MPMC.new_queue 0 4) 10) /\
    MPMC.head_ (mpmc_after_enqueue 4 (MPMC.new_queue 0 4) 10) -
      MPMC.tail_ (mpmc_after_enqueue 4 (MPMC.new_queue 0 4) 10) <= 4)).
Proof.
  destruct (counters_bounded Z 0 (fun x => x) 4 ltac:(repeat split)) as [Hring Hmpmc].
  split.
  - apply (Hring 1 0).
    apply (rreach_enqueue 0 (fun x => x) 4 0 0 (Ring.new_buffer 0 4) 10 true);
      [constructor|reflexivity].
  - apply (Hmpmc ltac:(lia) 1 0).
    apply (mreach_enqueue 0 (fun x => x) 4 0 0 (MPMC.new_queue 0 4) 1%nat 10 true);
      [constructor|reflexivity].
Defined.

(** ** Wraparound *)

(** C6 (fails on the code for the ring buffer).  [try_dequeue] tests
    [head <= tail] on the raw counters, while [try_enqueue] and
    [size] use the wrapped difference.  A [RingBuffer<int, 1>] that
    has run [2^64 - 1] fill-and-drain cycles is reachable with both
    counters at the largest [size_t]; the next cycle enqueues its value
    and the dequeue that follows returns nothing, although [empty()]
    is [false].  As a run of
    [fill_drain_cycles]: of [2^64] cycles the last one loses its
    value. *)
Theorem ring_round_trip_lost_after_wrap :
  (exists b,
     ring_reach 0 (fun x => x) 1 (modulus - 1) (modulus - 1)
       {| Ring.head_ := modulus - 1; Ring.tail_ := modulus - 1; Ring.buffer_ := [b] |} /\
     Ring.try_enqueue 1
       {| Ring.head_ := modulus - 1; Ring.tail_ := modulus - 1; Ring.buffer_ := [b] |} 7 =
     (true, {| Ring.head_ := 0; Ring.tail_ := modulus - 1; Ring.buffer_ := [7] |}) /\
     Ring.empty {| Ring.head_ := 0; Ring.tail_ := modulus - 1; Ring.buffer_ := [7] |} = false /\
     Ring.try_dequeue_opt 0 (fun x => x) 1
       {| Ring.head_ := 0; Ring.tail_ := modulus - 1; Ring.buffer_ := [7] |} =
     (None, {| Ring.head_ := 0; Ring.tail_ := modulus - 1; Ring.buffer_ := [7] |}) /\
     fill_drain (ring_enq 1) (ring_deq 0 (fun x => x) 1) [7]
       {| Ring.head_ := modulus - 1; Ring.tail_ := modulus - 1; Ring.buffer_ := [b] |} =
     Some ([true], [None],
           {| Ring.head_ := 0; Ring.tail_ := modulus - 1; Ring.buffer_ := [7] |})) /\
  (exists q',
     fill_drain_cycles (ring_enq 1) (ring_deq 0 (fun x => x) 1)
       (repeat [7] (S (Z.to_nat (modulus - 1)))) (Ring.new_buffer 0 1) =
     Some (repeat ([true], [Some 7]) (Z.to_nat (modulus - 1)) ++ [([true], [None])], q')).
Proof.
  assert (Hcap : valid_capacity 1) by (repeat split).
  split.
  - destruct (ring_reach_pairs 0 (fun x => x) 1 Hcap (modulus - 1)
                ltac:(split; [discriminate|reflexivity])) as (q & Hreach & R).
    destruct q as [h t buf].
    pose proof (rrep_head _ _ _ _ _ _ R) as Hh.
    pose proof (rrep_tail _ _ _ _ _ _ R) as Ht.
    pose proof (rrep_buffer _ _ _ _ _ _ R) as Hb.
    cbn [Ring.head_ Ring.tail_ Ring.buffer_] in Hh, Ht, Hb.
    change (wrap (modulus - 1)) with (modulus - 1) in Hh, Ht.
    change (Z.to_nat 1) with 1%nat in Hb.
    destruct buf as [|b [|b' buf]]; try discriminate Hb.
    subst h t. exists b. split; [exact Hreach|]. repeat split.
  - apply ring_one_cell_wraps. apply Z2Nat.id. discriminate.
Qed.


(** ** Observers *)

(** C7 (counterexample).  Three reachable states that break the claim
    as stated.  With the producer counter wrapped to 0 and the consumer
    counter at [2^64 - 1], [size()] of the ring buffer is 1, not the
    clamped difference 0; in the same situation the sequenced-slot
    queue answers [empty() = false] and [size() = 0]; and in
    [MPMCQueue<T, 1>] two enqueues in a row give [size() = 2] with
    [capacity() = 1]. *)
Lemma observers_counterexample :
  (exists q, ring_reachable 0 (fun x => x) 2 q /\
             Ring.size q = 1 /\
             Z.max 0 (Ring.head_ q - Ring.tail_ q) = 0) /\
  (exists q, mpmc_reachable 0 (fun x => x) 2 q /\
             MPMC.empty q = false /\ (MPMC.size q =? 0) = true) /\
  (exists q, mpmc_reachable 0 (fun x => x) 1 q /\
             MPMC.size q = 2 /\ MPMC.capacity 1 q = 1).
Proof.
  assert (Hcap : valid_capacity 2) by (repeat split).
  split; [|split].
  - destruct (ring_reach_wrapped 0 (fun x => x) 2 Hcap 7) as (q & Hreach & _ & Hh & Ht).
    exists q. split; [exists modulus, (modulus - 1); exact Hreach|].
    unfold Ring.size. rewrite Hh, Ht. split; reflexivity.
  - destruct (mpmc_reach_wrapped 0 (fun x => x) 2 Hcap 7) as (q & Hreach & _ & Hh & Ht).
    exists q. split; [exists modulus, (modulus - 1); exact Hreach|].
    unfold MPMC.empty, MPMC.size. rewrite Hh, Ht. split; reflexivity.
  - exists {| MPMC.tail_ := 0; MPMC.head_ := 2;
              MPMC.slots_ := [{| MPMC.sequence := 2; MPMC.element := 20 |}] |}.
    split; [|split; reflexivity].
    apply (mpmc_reachable_enqueue 0 (fun x => x) 1
             {| MPMC.tail_ := 0; MPMC.head_ := 1;
                MPMC.slots_ := [{| MPMC.sequence := 1; MPMC.element := 10 |}] |}
             1%nat 20 true); [|reflexivity].
    apply (mpmc_reachable_enqueue 0 (fun x => x) 1 (MPMC.new_queue 0 1) 1%nat 10 true);
      [|reflexivity].
    apply mpmc_reachable_new.
Qed.

(** C7 (amended).  In every reachable state of the ring buffer,
    [empty()] is true exactly when [size()] is 0, [size()] is at most
    [capacity()], and [size()] is [head - tail] in [size_t] arithmetic,
    with no clamp; this is the clamped difference as long as fewer
    than [2^64] enqueues have succeeded.  In every reachable state of
    a sequenced-slot queue of at least two slots, [size()] is
    [head - tail] clamped at 0 and at most [capacity()], and [empty()]
    is true exactly when [size()] is 0 as long as fewer than [2^64]
    enqueues have succeeded. *)
Theorem observers_consistent :
  forall (T : Type) (dflt : T) (moved : T -> T) (Capacity : Z),
    valid_capacity Capacity ->
    (forall E D q,
       ring_reach dflt moved Capacity E D q ->
       Ring.empty q = (Ring.size q =? 0) /\
       Ring.size q <= Ring.capacity Capacity q /\
       Ring.size q = wrap (Ring.head_ q - Ring.tail_ q) /\
       (E < modulus -> Ring.size q = Z.max 0 (Ring.head_ q - Ring.tail_ q))) /\
    (2 <= Capacity ->
     forall E D q,
       mpmc_reach dflt moved Capacity E D q ->
       MPMC.size q = Z.max 0 (MPMC.head_ q - MPMC.tail_ q) /\
       MPMC.size q <= MPMC.capacity Capacity q /\
       (E < modulus -> MPMC.empty q = (MPMC.size q =? 0))).
Proof.
  intros T dflt moved Capacity Hcap. split.
  - intros E D q Hreach.
    destruct (ring_observers dflt moved Capacity Hcap E D q Hreach) as (H1 & H2 & _ & H4).
    repeat split; assumption.
  - intros H2 E D q Hreach.
    destruct (mpmc_observers dflt moved Capacity Hcap E D q H2 Hreach) as (H1 & H3 & H4).
    repeat split; try assumption. intros HE. apply H4, HE.
Qed.

Lemma observers_consistent_witness :
  (Ring.empty (snd (Ring.try_enqueue 4 (Ring.new_buffer 0 4) 10)) =
     (Ring.size (snd (Ring.try_enqueue 4 (Ring.new_buffer 0 4) 10)) =? 0) /\
   Ring.size (snd (Ring.try_enqueue 4 (Ring.new_buffer 0 4) 10)) <= 4) /\
  (MPMC.size (mpmc_after_enqueue 4 (MPMC.new_queue 0 4) 10) <= 4 /\
   MPMC.empty (mpmc_after_enqueue 4 (MPMC.new_queue 0 4) 10) =
     (MPMC.size (mpmc_after_enqueue 4 (MPMC.new_queue 0 4) 10) =? 0)).
Proof.
  destruct (observers_consistent Z 0 (fun x => x) 4 ltac:(repeat split)) as [Hring Hmpmc].
  split.
  - destruct (Hring 1 0 (snd (Ring.try_enqueue 4 (Ring.new_buffer 0 4) 10)))
      as (H1 & H2 & _).
    + apply (rreach_enqueue 0 (fun x => x) 4 0 0 (Ring.new_buffer 0 4) 10 true);
        [constructor|reflexivity].
    + split; [exact H1|exact H2].
  - destruct (Hmpmc ltac:(lia) 1 0 (mpmc_after_enqueue 4 (MPMC.new_queue 0 4) 10))
      as (_ & H2 & H3).
    + apply (mreach_enqueue 0 (fun x => x) 4 0 0 (MPMC.new_queue 0 4) 1%nat 10 true);
        [constructor|reflexivity].
    + split; [exact H2|apply H3; reflexivity].
Defined.

(** ** The two forms of dequeue *)

(** C8.  On every state, the reference form and the optional form of
    [dequeue] succeed together, deliver the same element and leave the
    same queue: [dequeue(out)] returns [true] with [out = v] exactly
    when [dequeue()] returns [v], and [false], leaving [out] alone,
    exactly when [dequeue()] returns nothing.  Holds for the
    sequenced-slot queue with any fuel, where on reachable states of a
    queue of at least two slots both forms do return, and for the ring
    buffer. *)
Theorem dequeue_forms_equivalent :
  forall (T : Type) (dflt : T) (moved : T -> T) (Capacity : Z),
    (forall fuel q r,
       match MPMC.dequeue dflt moved Capacity fuel q r,
             MPMC.dequeue_opt dflt moved Capacity fuel q with
       | Some (true, out, q1), Some (Some v, q2) => out = v /\ q1 = q2
       | Some (false, out, q1), Some (None, q2) => out = r /\ q1 = q2
       | None, None => True
       | _, _ => False
       end) /\
    (forall q r,
       Ring.try_dequeue dflt moved Capacity q r =
         match Ring.try_dequeue_opt dflt moved Capacity q with
         | (Some v, q') => (true, v, q')
         | (None, q') => (false, r, q')
         end) /\
    (valid_capacity Capacity -> 2 <= Capacity ->
     forall E D q fuel r,
       mpmc_reach dflt moved Capacity E D q ->
       exists b out q',
         MPMC.dequeue dflt moved Capacity (S fuel) q r = Some (b, out, q')).
Proof.
  intros T dflt moved Capacity. split; [|split].
  - intros fuel q r. apply mpmc_dequeue_forms.
  - intros q r. apply ring_try_dequeue_forms.
  - intros Hcap H2 E D q fuel r Hreach.
    destruct (mpmc_dequeue_outcome dflt moved Capacity Hcap E D q fuel r H2 Hreach)
      as (b & out & q' & Hrun & _).
    exists b, out, q'. exact Hrun.
Qed.

Lemma dequeue_forms_equivalent_witness :
  (Ring.try_dequeue 0 (fun x => x) 4 (snd (Ring.try_enqueue 4 (Ring.new_buffer 0 4) 10)) 0 =
     match Ring.try_dequeue_opt 0 (fun x => x) 4
             (snd (Ring.try_enqueue 4 (Ring.new_buffer 0 4) 10)) with
     | (Some v, q') => (true, v, q')
     | (None, q') => (false, 0, q')
     end) /\
  (exists b out q',
     MPMC.dequeue 0 (fun x => x) 4 1 (mpmc_after_enqueue 4 (MPMC.new_queue 0 4) 10) 0 =
       Some (b, out, q')).
Proof.
  destruct (dequeue_forms_equivalent Z 0 (fun x => x) 4) as (_ & Hring & Hret).
  split.
  - apply Hring.
  - apply (Hret ltac:(repeat split) ltac:(lia) 1 0).
    apply (mreach_enqueue 0 (fun x => x) 4 0 0 (MPMC.new_queue 0 4) 1%nat 10 true);
      [constructor|reflexivity].
Defined.

(** ** Destruction *)

(** C9 (fails on the code).  The destructor of the ring buffer starts
    at [head] and counts upwards until the index equals [tail]: on a
    [RingBuffer<int, 4>] that holds one element, in cell 0, its first
    five passes destroy the cells 1, 2, 3, 0, 1, and the loop is not
    left before [2^64 - 1] passes. *)
Theorem ring_destructor_counts_up_from_head :
  Ring.try_enqueue 4 (Ring.new_buffer 0 4) 7 =
    (true, {| Ring.head_ := 1; Ring.tail_ := 0; Ring.buffer_ := [7; 0; 0; 0] |}) /\
  Ring.destructor 4 5
    {| Ring.head_ := 1; Ring.tail_ := 0; Ring.buffer_ := [7; 0; 0; 0] |} =
    ([1; 2; 3; 0; 1], false) /\
  (forall fuel : nat,
     Z.of_nat fuel < modulus - 1 ->
     snd (Ring.destructor 4 fuel
            {| Ring.head_ := 1; Ring.tail_ := 0; Ring.buffer_ := [7; 0; 0; 0] |}) = false).
Proof.
  split; [reflexivity|]. split; [reflexivity|].
  intros fuel Hfuel. unfold Ring.destructor. cbn [Ring.head_ Ring.tail_].
  rewrite ring_destructor_passes.
  - cbn [snd]. rewrite wrap_small by lia. lia.
  - intros k Hk. rewrite wrap_small by lia. lia.
  - reflexivity.
Qed.

(** ** Frame *)

(** C10.  On every state: an [enqueue] that returns [true] sets the
    producer counter to [head + 1], leaves the consumer counter alone
    and writes only cell [head & mask_] (the value and, in the
    sequenced-slot queue, the sequence number [head + 1]); a [dequeue]
    that succeeds returns the element of cell [tail & mask_], sets the
    consumer counter to [tail + 1], leaves the producer counter alone
    and writes only that cell (the moved-from element and, in the
    sequenced-slot queue, the sequence number [tail + Capacity]); a
    call that returns [false] or nothing returns the queue unchanged
    (and leaves [result] alone). *)
Theorem frame_property :
  forall (T : Type) (dflt : T) (moved : T -> T) (Capacity : Z),
    (forall fuel (q : @MPMC.MPMCQueue T) v b q',
       MPMC.enqueue dflt Capacity fuel q v = Some (b, q') ->
       if b then
         MPMC.head_ q' = wrap (MPMC.head_ q + 1) /\
         MPMC.tail_ q' = MPMC.tail_ q /\
         only_cell_changed (Z.land (MPMC.head_ q) (MPMC.mask_ Capacity))
           (MPMC.slots_ q) (MPMC.slots_ q') /\
         MPMC.slots_ q' =
           <[Z.to_nat (Z.land (MPMC.head_ q) (MPMC.mask_ Capacity)) :=
               {| MPMC.sequence := wrap (MPMC.head_ q + 1); MPMC.element := v |}]>
             (MPMC.slots_ q)
       else q' = q) /\
    (forall fuel (q : @MPMC.MPMCQueue T) r b r' q',
       MPMC.dequeue dflt moved Capacity fuel q r = Some (b, r', q') ->
       if b then
         r' = MPMC.element (MPMC.slot_at dflt (MPMC.slots_ q)
                              (Z.land (MPMC.tail_ q) (MPMC.mask_ Capacity))) /\
         MPMC.tail_ q' = wrap (MPMC.tail_ q + 1) /\
         MPMC.head_ q' = MPMC.head_ q /\
         only_cell_changed (Z.land (MPMC.tail_ q) (MPMC.mask_ Capacity))
           (MPMC.slots_ q) (MPMC.slots_ q') /\
         MPMC.slots_ q' =
           <[Z.to_nat (Z.land (MPMC.tail_ q) (MPMC.mask_ Capacity)) :=
               {| MPMC.sequence := wrap (MPMC.tail_ q + Capacity);
                  MPMC.element := moved r' |}]>
             (MPMC.slots_ q)
       else r' = r /\ q' = q) /\
    (forall fuel (q : @MPMC.MPMCQueue T) o q',
       MPMC.dequeue_opt dflt moved Capacity fuel q = Some (o, q') ->
       match o with
       | Some x =>
           x = MPMC.element (MPMC.slot_at dflt (MPMC.slots_ q)
                               (Z.land (MPMC.tail_ q) (MPMC.mask_ Capacity))) /\
           MPMC.tail_ q' = wrap (MPMC.tail_ q + 1) /\
           MPMC.head_ q' = MPMC.head_ q /\
           only_cell_changed (Z.land (MPMC.tail_ q) (MPMC.mask_ Capacity))
             (MPMC.slots_ q) (MPMC.slots_ q')
       | None => q' = q
       end) /\
    (forall (q : @Ring.RingBuffer T) v b q',
       Ring.try_enqueue Capacity q v = (b, q') ->
       if b then
         Ring.head_ q' = wrap (Ring.head_ q + 1) /\
         Ring.tail_ q' = Ring.tail_ q /\
         only_cell_changed (Z.land (Ring.head_ q) (Ring.mask_ Capacity))
           (Ring.buffer_ q) (Ring.buffer_ q') /\
         Ring.buffer_ q' =
           <[Z.to_nat (Z.land (Ring.head_ q) (Ring.mask_ Capacity)) := v]> (Ring.buffer_ q)
       else q' = q) /\
    (forall (q : @Ring.RingBuffer T) r b r' q',
       Ring.try_dequeue dflt moved Capacity q r = (b, r', q') ->
       if b then
         r' = Ring.buffer_at dflt (Ring.buffer_ q)
                (Z.land (Ring.tail_ q) (Ring.mask_ Capacity)) /\
         Ring.tail_ q' = wrap (Ring.tail_ q + 1) /\
         Ring.head_ q' = Ring.head_ q /\
         only_cell_changed (Z.land (Ring.tail_ q) (Ring.mask_ Capacity))
           (Ring.buffer_ q) (Ring.buffer_ q') /\
         Ring.buffer_ q' =
           <[Z.to_nat (Z.land (Ring.tail_ q) (Ring.mask_ Capacity)) := moved r']>
             (Ring.buffer_ q)
       else r' = r /\ q' = q) /\
    (forall (q : @Ring.RingBuffer T) o q',
       Ring.try_dequeue_opt dflt moved Capacity q = (o, q') ->
       match o with
       | Some x =>
           x = Ring.buffer_at dflt (Ring.buffer_ q)
                 (Z.land (Ring.tail_ q) (Ring.mask_ Capacity)) /\
           Ring.tail_ q' = wrap (Ring.tail_ q + 1) /\
           Ring.head_ q' = Ring.head_ q /\
           only_cell_changed (Z.land (Ring.tail_ q) (Ring.mask_ Capacity))
             (Ring.buffer_ q) (Ring.buffer_ q') /\
           Ring.buffer_ q' =
             <[Z.to_nat (Z.land (Ring.tail_ q) (Ring.mask_ Capacity)) := moved x]>
               (Ring.buffer_ q)
       | None => q' = q
       end).
Proof.
  intros T dflt moved Capacity. unfold MPMC.mask_, Ring.mask_.
  split; [|split; [|split; [|split; [|split]]]].
  - intros fuel q v b q' Hcall. apply (mpmc_enqueue_frame dflt Capacity fuel q v b q' Hcall).
  - intros fuel q r b r' q' Hcall.
    pose proof (mpmc_dequeue_frame dflt moved Capacity fuel q r b r' q' Hcall) as H.
    cbv zeta in H. destruct b; [|exact H].
    destruct H as (-> & H2 & H3 & H4 & H5).
    split; [reflexivity|]. split; [exact H2|]. split; [exact H3|].
    split; [exact H4|exact H5].
  - intros fuel q o q' Hcall.
    apply (mpmc_dequeue_opt_frame dflt moved Capacity fuel q o q' Hcall).
  - intros q v b q' Hcall.
    pose proof (ring_try_enqueue_frame Capacity q v) as H. rewrite Hcall in H. exact H.
  - intros q r b r' q' Hcall.
    pose proof (ring_try_dequeue_frame dflt moved Capacity q r) as H.
    cbv zeta in H. rewrite Hcall in H. exact H.
  - intros q o q' Hcall.
    pose proof (ring_try_dequeue_opt_frame dflt moved Capacity q) as H.
    cbv zeta in H. rewrite Hcall in H. exact H.
Qed.

Lemma frame_property_witness :
  (MPMC.head_ (mpmc_after_enqueue 4 (MPMC.new_queue 0 4) 10) = wrap (0 + 1) /\
   MPMC.tail_ (mpmc_after_enqueue 4 (MPMC.new_queue 0 4) 10) = 0) /\
  (Ring.head_ (snd (Ring.try_enqueue 4 (Ring.new_buffer 0 4) 10)) = wrap (0 + 1) /\
   Ring.tail_ (snd (Ring.try_enqueue 4 (Ring.new_buffer 0 4) 10)) = 0) /\
  snd (Ring.try_dequeue_opt 0 (fun x => x) 4 (Ring.new_buffer 0 4)) = Ring.new_buffer 0 4.
Proof.
  destruct (frame_property Z 0 (fun x => x) 4) as (Henq & _ & _ & Hrenq & _ & Hrdeq).
  split; [|split].
  - destruct (Henq 1%nat (MPMC.new_queue 0 4) 10 true
                (mpmc_after_enqueue 4 (MPMC.new_queue 0 4) 10) eq_refl) as (H1 & H2 & _).
    split; [exact H1|exact H2].
  - destruct (Hrenq (Ring.new_buffer 0 4) 10 true
                (snd (Ring.try_enqueue 4 (Ring.new_buffer 0 4) 10)) eq_refl) as (H1 & H2 & _).
    split; [exact H1|exact H2].
  - apply (Hrdeq (Ring.new_buffer 0 4) None
             (snd (Ring.try_dequeue_opt 0 (fun x => x) 4 (Ring.new_buffer 0 4))) eq_refl).
Defined.


(** * Further properties *)

(** X1.  The capacity bound where the code keeps it: on a newly constructed
    sequenced-slot queue of at least two slots, and on a ring buffer of
    any capacity, [Capacity] enqueues in a row succeed and the next
    returns [false]; after one dequeue, which returns the first value,
    one more enqueue succeeds and the next returns [false]. *)
Theorem capacity_bound_two_slots :
  forall (T : Type) (dflt : T) (moved : T -> T) (Capacity : Z) (vs : list T) (v1 v2 v3 : T),
    valid_capacity Capacity ->
    Z.of_nat (length vs) = Capacity ->
    (2 <= Capacity ->
     forall fuel, exists q1 x q2 q3,
       enqueue_all (mpmc_enq dflt Capacity (S fuel)) (vs ++ [v1])
         (MPMC.new_queue dflt Capacity) =
         Some (repeat true (length vs) ++ [false], q1) /\
       mpmc_deq dflt moved Capacity (S fuel) q1 = Some (Some x, q2) /\
       hd_error vs = Some x /\
       enqueue_all (mpmc_enq dflt Capacity (S fuel)) [v2; v3] q2 =
         Some ([true; false], q3)) /\
    (exists q1 x q2 q3,
       enqueue_all (ring_enq Capacity) (vs ++ [v1]) (Ring.new_buffer dflt Capacity) =
         Some (repeat true (length vs) ++ [false], q1) /\
       ring_deq dflt moved Capacity q1 = Some (Some x, q2) /\
       hd_error vs = Some x /\
       enqueue_all (ring_enq Capacity) [v2; v3] q2 = Some ([true; false], q3)).
Proof.
  intros T dflt moved Capacity vs v1 v2 v3 Hcap Hlen. split.
  - intros H2 fuel. apply mpmc_capacity_bound; assumption.
  - apply ring_capacity_bound; assumption.
Qed.

Lemma capacity_bound_two_slots_witness :
  (forall fuel, exists q1 x q2 q3,
     enqueue_all (mpmc_enq 0 2 (S fuel)) ([10; 20] ++ [30]) (MPMC.new_queue 0 2) =
       Some (repeat true 2 ++ [false], q1) /\
     mpmc_deq 0 (fun x => x) 2 (S fuel) q1 = Some (Some x, q2) /\
     hd_error [10; 20] = Some x /\
     enqueue_all (mpmc_enq 0 2 (S fuel)) [40; 50] q2 = Some ([true; false], q3)) /\
  (exists q1 x q2 q3,
     enqueue_all (ring_enq 2) ([10; 20] ++ [30]) (Ring.new_buffer 0 2) =
       Some (repeat true 2 ++ [false], q1) /\
     ring_deq 0 (fun x => x) 2 q1 = Some (Some x, q2) /\
     hd_error [10; 20] = Some x /\
     enqueue_all (ring_enq 2) [40; 50] q2 = Some ([true; false], q3)).
Proof.
  destruct (capacity_bound_two_slots Z 0 (fun x => x) 2 [10; 20] 30 40 50
              ltac:(repeat split) eq_refl) as [Hmpmc Hring].
  split; [apply Hmpmc; lia|exact Hring].
Defined.

(** X2.  Full and empty where they are the only failures: in every
    reachable state of a sequenced-slot queue of at least two slots a
    call returns on its first pass, [enqueue] returns [false] exactly
    when [head - tail = Capacity] (in [size_t] arithmetic) and
    [dequeue] exactly when [head = tail]; in every reachable state of
    the ring buffer [try_enqueue] returns [false] exactly when
    [head - tail = Capacity], and [try_dequeue] returns nothing exactly
    when [head = tail] as long as fewer than [2^64] enqueues have
    succeeded. *)
Theorem full_and_empty_outcomes :
  forall (T : Type) (dflt : T) (moved : T -> T) (Capacity : Z),
    valid_capacity Capacity ->
    (2 <= Capacity ->
     forall E D q fuel v r,
       mpmc_reach dflt moved Capacity E D q ->
       (exists b q', MPMC.enqueue dflt Capacity (S fuel) q v = Some (b, q') /\
          (b = false <-> wrap (MPMC.head_ q - MPMC.tail_ q) = Capacity)) /\
       (exists b r' q', MPMC.dequeue dflt moved Capacity (S fuel) q r = Some (b, r', q') /\
          (b = false <-> MPMC.head_ q = MPMC.tail_ q))) /\
    (forall E D q v,
       ring_reach dflt moved Capacity E D q ->
       (fst (Ring.try_enqueue Capacity q v) = false <->
        wrap (Ring.head_ q - Ring.tail_ q) = Capacity) /\
       (E < modulus ->
        (fst (Ring.try_dequeue_opt dflt moved Capacity q) = None <->
         Ring.head_ q = Ring.tail_ q))).
Proof.
  intros T dflt moved Capacity Hcap. split.
  - intros H2 E D q fuel v r Hreach. split.
    + apply (mpmc_enqueue_outcome dflt moved Capacity Hcap E D q fuel v H2 Hreach).
    + apply (mpmc_dequeue_outcome dflt moved Capacity Hcap E D q fuel r H2 Hreach).
  - intros E D q v Hreach. split.
    + apply (ring_enqueue_outcome dflt moved Capacity Hcap E D q v Hreach).
    + intros HE. apply (ring_dequeue_outcome dflt moved Capacity Hcap E D q Hreach HE).
Qed.

Lemma full_and_empty_outcomes_witness :
  (exists b q', MPMC.enqueue 0 4 1 (MPMC.new_queue 0 4) 10 = Some (b, q') /\
     (b = false <->
      wrap (MPMC.head_ (MPMC.new_queue 0 4) - MPMC.tail_ (MPMC.new_queue 0 4)) = 4)) /\
  (fst (Ring.try_dequeue_opt 0 (fun x => x) 4 (Ring.new_buffer 0 4)) = None <->
   Ring.head_ (Ring.new_buffer 0 4) = Ring.tail_ (Ring.new_buffer 0 4)).
Proof.
  destruct (full_and_empty_outcomes Z 0 (fun x => x) 4 ltac:(repeat split))
    as [Hmpmc Hring].
  split.
  - apply (Hmpmc ltac:(lia) 0 0 (MPMC.new_queue 0 4) 0%nat 10 0). constructor.
  - apply (Hring 0 0 (Ring.new_buffer 0 4) 10); [constructor|reflexivity].
Defined.

(** X3.  The fill-and-drain round trip where the code keeps it: whatever
    the number of cycles, each of at most [Capacity] values, the
    sequenced-slot queue returns in every cycle the values enqueued in
    that cycle, in order; the ring buffer does so as long as the cycles
    enqueue fewer than [2^64] values in total. *)
Theorem round_trip_cycles :
  forall (T : Type) (dflt : T) (moved : T -> T) (Capacity : Z) (cycles : list (list T)),
    valid_capacity Capacity ->
    Forall (fun vs => Z.of_nat (length vs) <= Capacity) cycles ->
    (forall fuel, exists q',
       fill_drain_cycles (mpmc_enq dflt Capacity (S fuel))
         (mpmc_deq dflt moved Capacity (S fuel)) cycles (MPMC.new_queue dflt Capacity) =
       Some (map (fun vs => (repeat true (length vs), map Some vs)) cycles, q')) /\
    (total_length cycles < modulus ->
     exists q',
       fill_drain_cycles (ring_enq Capacity) (ring_deq dflt moved Capacity) cycles
         (Ring.new_buffer dflt Capacity) =
       Some (map (fun vs => (repeat true (length vs), map Some vs)) cycles, q')).
Proof.
  intros T dflt moved Capacity cycles Hcap Hall. split.
  - intros fuel. apply mpmc_cycles_run; assumption.
  - intros Hlt.
    destruct (ring_cycles_run dflt moved Capacity Hcap cycles Hall Hlt) as (q' & Hrun & _).
    exists q'. exact Hrun.
Qed.

Lemma round_trip_cycles_witness :
  (forall fuel, exists q',
     fill_drain_cycles (mpmc_enq 0 2 (S fuel)) (mpmc_deq 0 (fun x => x) 2 (S fuel))
       [[0; 1]; [100; 101]; [200; 201]] (MPMC.new_queue 0 2) =
     Some ([([true; true], [Some 0; Some 1]);
            ([true; true], [Some 100; Some 101]);
            ([true; true], [Some 200; Some 201])], q')) /\
  (exists q',
     fill_drain_cycles (ring_enq 2) (ring_deq 0 (fun x => x) 2)
       [[0; 1]; [100; 101]; [200; 201]] (Ring.new_buffer 0 2) =
     Some ([([true; true], [Some 0; Some 1]);
            ([true; true], [Some 100; Some 101]);
            ([true; true], [Some 200; Some 201])], q')).
Proof.
  destruct (round_trip_cycles Z 0 (fun x => x) 2 [[0; 1]; [100; 101]; [200; 201]]
              ltac:(repeat split)) as [Hmpmc Hring].
  - repeat constructor; simpl; lia.
  - split; [exact Hmpmc|apply Hring; reflexivity].
Defined.


(** * More of the code: callers, observers, element types *)

(** ** Arbitrary call sequences *)

Lemma enqueue_calls_nonneg {T} (cs : list (call T)) : 0 <= enqueue_calls cs.
Proof. induction cs as [|[v|] cs IH]; simpl; lia. Qed.

Lemma last_cons_default {A} (xs : list A) : forall x d,
  List.last (x :: xs) d = List.last xs x.
Proof.
  induction xs as [|y xs IH]; intros x d; [reflexivity|].
  change (List.last (x :: y :: xs) d) with (List.last (y :: xs) d).
  rewrite !IH. reflexivity.
Qed.

Section CallFacts.
Context {Q T : Type}.
Variable enq : Q -> T -> option (bool * Q).
Variable deq : Q -> option (option T * Q).
Variable deq_ref : Q -> T -> option (bool * T * Q).
Variable rep : Z -> Z -> list T -> Q -> Prop.
Variable good : Z -> Prop.
Variable Capacity : Z.

Hypothesis good_down : forall E E', E' <= E -> good E -> good E'.
Hypothesis rep_count : forall E D xs q,
  rep E D xs q -> E - D = Z.of_nat (length xs).
Hypothesis rep_bound : forall E D xs q, rep E D xs q -> E - D <= Capacity.
Hypothesis enq_room : forall E D xs q v,
  rep E D xs q -> E - D < Capacity ->
  exists q', enq q v = Some (true, q') /\ rep (E + 1) D (xs ++ [v]) q'.
Hypothesis enq_full : forall E D xs q v,
  rep E D xs q -> E - D = Capacity -> enq q v = Some (false, q).
Hypothesis deq_some : forall E D x xs q,
  rep E D (x :: xs) q -> good E ->
  exists q', deq q = Some (Some x, q') /\ rep E (D + 1) xs q'.
Hypothesis deq_none : forall E D q, rep E D [] q -> deq q = Some (None, q).
Hypothesis deq_ref_some : forall E D x xs q r,
  rep E D (x :: xs) q -> good E ->
  exists q', deq_ref q r = Some (true, x, q') /\ rep E (D + 1) xs q'.
Hypothesis deq_ref_none : forall E D q r,
  rep E D [] q -> deq_ref q r = Some (false, r, q).

(** Every call returns what the bounded FIFO returns, and the state
    reached represents what the bounded FIFO holds. *)
Lemma run_calls_refines cs : forall E D xs q,
  rep E D xs q -> good (E + enqueue_calls cs) ->
  exists q' E' D',
    run_calls enq deq cs q = Some (fst (fifo_spec_run Capacity cs xs), q') /\
    rep E' D' (snd (fifo_spec_run Capacity cs xs)) q' /\
    E <= E' <= E + enqueue_calls cs.
Proof.
  induction cs as [|c cs IH]; intros E D xs q R Hgood.
  - exists q, E, D. simpl. split; [reflexivity|]. split; [assumption|lia].
  - pose proof (enqueue_calls_nonneg cs) as Hnn.
    pose proof (rep_count _ _ _ _ R) as Hcount.
    pose proof (rep_bound _ _ _ _ R) as Hbound.
    destruct c as [v|]; cbn [run_calls fifo_spec_run fifo_spec_step enqueue_calls] in *.
    + destruct (Z.of_nat (length xs) <? Capacity) eqn:Hroom.
      * destruct (enq_room _ _ _ _ v R ltac:(lia)) as (q1 & Hrun & R1).
        destruct (IH (E + 1) D (xs ++ [v]) q1 R1) as (q2 & E2 & D2 & Hrest & R2 & HE).
        { eapply good_down; [|exact Hgood]. lia. }
        rewrite Hrun, Hrest.
        destruct (fifo_spec_run Capacity cs (xs ++ [v])) as [out xs2]. simpl in *.
        exists q2, E2, D2. split; [reflexivity|]. split; [assumption|lia].
      * rewrite (enq_full _ _ _ _ v R ltac:(lia)).
        destruct (IH E D xs q R) as (q2 & E2 & D2 & Hrest & R2 & HE).
        { eapply good_down; [|exact Hgood]. lia. }
        rewrite Hrest.
        destruct (fifo_spec_run Capacity cs xs) as [out xs2]. simpl in *.
        exists q2, E2, D2. split; [reflexivity|]. split; [assumption|lia].
    + destruct xs as [|x xs].
      * rewrite (deq_none _ _ _ R).
        destruct (IH E D [] q R Hgood) as (q2 & E2 & D2 & Hrest & R2 & HE).
        rewrite Hrest.
        destruct (fifo_spec_run Capacity cs []) as [out xs2]. simpl in *.
        exists q2, E2, D2. split; [reflexivity|]. split; [assumption|lia].
      * destruct (deq_some _ _ _ _ _ R) as (q1 & Hrun & R1).
        { eapply good_down; [|exact Hgood]. lia. }
        destruct (IH E (D + 1) xs q1 R1 Hgood) as (q2 & E2 & D2 & Hrest & R2 & HE).
        rewrite Hrun, Hrest.
        destruct (fifo_spec_run Capacity cs xs) as [out xs2]. simpl in *.
        exists q2, E2, D2. split; [reflexivity|]. split; [assumption|lia].
Qed.

(** The clearing loop dequeues every element and stops at the first
    [false]: [temp] ends as the newest element. *)
Lemma clear_loop_empties xs : forall E D q temp extra,
  rep E D xs q -> good E ->
  exists q',
    clear_loop deq_ref (S (length xs) + extra) q temp = Some (List.last xs temp, q') /\
    rep E E [] q'.
Proof.
  induction xs as [|x xs IH]; intros E D q temp extra R Hgood.
  - pose proof (rep_count _ _ _ _ R) as Hcount. simpl in Hcount.
    assert (D = E) as -> by lia.
    exists q. simpl. rewrite (deq_ref_none _ _ _ temp R). split; [reflexivity|assumption].
  - destruct (deq_ref_some _ _ _ _ _ temp R Hgood) as (q1 & Hrun & R1).
    destruct (IH E (D + 1) q1 x extra R1 Hgood) as (q2 & Hrest & R2).
    exists q2. split; [|assumption].
    change (S (length (x :: xs)) + extra)%nat with (S (S (length xs) + extra)).
    cbn [clear_loop]. rewrite Hrun, Hrest, last_cons_default. reflexivity.
Qed.
End CallFacts.


Section CallRuns.
Context {T : Type}.
Variable dflt : T.
Variable moved : T -> T.
Variable Capacity : Z.
Hypothesis Hcap : valid_capacity Capacity.

Lemma mpmc_deq_ref_some E D x xs (q : @MPMC.MPMCQueue T) fuel r :
  mpmc_rep dflt Capacity E D (x :: xs) q ->
  exists q', mpmc_deq_ref dflt moved Capacity (S fuel) q r = Some (true, x, q') /\
             mpmc_rep dflt Capacity E (D + 1) xs q'.
Proof.
  intros R. exists (mpmc_after_dequeue dflt moved Capacity q).
  apply (mpmc_dequeue_some dflt moved Capacity Hcap E D x xs q fuel r R).
Qed.

Lemma ring_deq_ref_some E D x xs (q : @Ring.RingBuffer T) r :
  ring_rep dflt Capacity E D (x :: xs) q -> E < modulus ->
  exists q', ring_deq_ref dflt moved Capacity q r = Some (true, x, q') /\
             ring_rep dflt Capacity E (D + 1) xs q'.
Proof.
  intros R HE.
  destruct (ring_try_dequeue_some dflt moved Capacity Hcap E D x xs q R HE)
    as (q' & Hrun & R').
  exists q'. split; [|assumption].
  unfold ring_deq_ref. rewrite ring_try_dequeue_forms, Hrun. reflexivity.
Qed.

Lemma ring_deq_ref_none E D (q : @Ring.RingBuffer T) r :
  ring_rep dflt Capacity E D [] q ->
  ring_deq_ref dflt moved Capacity q r = Some (false, r, q).
Proof.
  intros R. unfold ring_deq_ref.
  rewrite ring_try_dequeue_forms, (ring_try_dequeue_none dflt moved Capacity E D q R).
  reflexivity.
Qed.

(** Any call sequence on a new sequenced-slot queue of at least two
    slots ends in a state that represents what the bounded FIFO holds. *)
Lemma mpmc_run_calls_rep fuel (cs : list (call T)) :
  2 <= Capacity ->
  exists q' E' D',
    run_calls (mpmc_enq dflt Capacity (S fuel)) (mpmc_deq dflt moved Capacity (S fuel)) cs
      (MPMC.new_queue dflt Capacity) =
      Some (fst (fifo_spec_run Capacity cs []), q') /\
    mpmc_rep dflt Capacity E' D' (snd (fifo_spec_run Capacity cs [])) q' /\
    0 <= E' <= 0 + enqueue_calls cs.
Proof.
  intros H2.
  apply (run_calls_refines (mpmc_enq dflt Capacity (S fuel))
           (mpmc_deq dflt moved Capacity (S fuel))
           (mpmc_rep dflt Capacity) always Capacity
           (fun _ _ _ _ => I)
           (mrep_length dflt Capacity)
           (mrep_bound dflt Capacity)
           (fun E D xs q v => mpmc_enq_room dflt Capacity Hcap E D xs q fuel v)
           (fun E D xs q v => mpmc_enq_full dflt Capacity Hcap E D xs q fuel v H2)
           (fun E D x xs q R _ => mpmc_deq_some dflt moved Capacity Hcap E D x xs q fuel R)
           (fun E D q => mpmc_deq_none dflt moved Capacity Hcap E D q fuel)
           cs 0 0 [] (MPMC.new_queue dflt Capacity) (mpmc_rep_new dflt Capacity Hcap) I).
Qed.

(** The same on a new ring buffer, when the sequence has fewer than
    [2^64] enqueue calls. *)
Lemma ring_run_calls_rep (cs : list (call T)) :
  enqueue_calls cs < modulus ->
  exists q' E' D',
    run_calls (ring_enq Capacity) (ring_deq dflt moved Capacity) cs
      (Ring.new_buffer dflt Capacity) =
      Some (fst (fifo_spec_run Capacity cs []), q') /\
    ring_rep dflt Capacity E' D' (snd (fifo_spec_run Capacity cs [])) q' /\
    0 <= E' <= 0 + enqueue_calls cs.
Proof.
  intros Hlt.
  apply (run_calls_refines (ring_enq Capacity) (ring_deq dflt moved Capacity)
           (ring_rep dflt Capacity) unwrapped Capacity
           unwrapped_down
           (rrep_length dflt Capacity)
           (rrep_bound dflt Capacity)
           (ring_enq_room dflt Capacity Hcap)
           (ring_enq_full dflt Capacity Hcap)
           (ring_deq_some dflt moved Capacity Hcap)
           (ring_deq_none dflt moved Capacity)
           cs 0 0 [] (Ring.new_buffer dflt Capacity) (ring_rep_new dflt Capacity Hcap) Hlt).
Qed.

(** [size()], [empty()] and [full()] on a state that represents a FIFO. *)
Lemma ring_observers_rep E D xs (q : @Ring.RingBuffer T) :
  ring_rep dflt Capacity E D xs q ->
  Ring.size q = Z.of_nat (length xs) /\
  Ring.empty q = (Z.of_nat (length xs) =? 0) /\
  Ring.full Capacity q = (Z.of_nat (length xs) =? Capacity).
Proof.
  intros R. pose proof (ring_rep_range _ _ _ _ _ _ R) as Hrange.
  pose proof (rrep_length _ _ _ _ _ _ R) as Hlen.
  assert (Hsize : Ring.size q = Z.of_nat (length xs)).
  { unfold Ring.size. rewrite (rrep_head _ _ _ _ _ _ R), (rrep_tail _ _ _ _ _ _ R).
    rewrite (wrap_diff_count _ Hcap) by assumption. exact Hlen. }
  unfold Ring.empty, Ring.full. rewrite Hsize.
  split; [reflexivity|]. split; [reflexivity|].
  destruct (Z.of_nat (length xs) >=? Capacity) eqn:H1,
           (Z.of_nat (length xs) =? Capacity) eqn:H2; try reflexivity; lia.
Qed.

Lemma mpmc_observers_rep E D xs (q : @MPMC.MPMCQueue T) :
  mpmc_rep dflt Capacity E D xs q -> E < modulus ->
  MPMC.size q = Z.of_nat (length xs) /\
  MPMC.empty q = (Z.of_nat (length xs) =? 0).
Proof.
  intros R HE. pose proof (mpmc_rep_range _ _ _ _ _ _ R) as Hrange.
  pose proof (mrep_length _ _ _ _ _ _ R) as Hlen.
  pose proof (mrep_nonneg _ _ _ _ _ _ R) as HD.
  unfold MPMC.size, MPMC.empty.
  rewrite (mrep_head _ _ _ _ _ _ R), (mrep_tail _ _ _ _ _ _ R).
  rewrite !wrap_small by lia.
  destruct (E >=? D) eqn:Hge; [|lia].
  split; [lia|].
  destruct (E =? D) eqn:H1, (Z.of_nat (length xs) =? 0) eqn:H2; try reflexivity; lia.
Qed.
End CallRuns.

(** X4.  Any finite sequence of enqueue and dequeue calls on a newly
    constructed queue returns, call by call, what a first-in first-out
    list bounded by [Capacity] returns: an enqueue is refused exactly
    when [Capacity] elements are held, a dequeue returns the oldest
    element held or nothing when none is.  Holds for the
    sequenced-slot queue of at least two slots, whatever the length of
    the sequence (also past the wrap of its counters), and for the ring
    buffer when the sequence has fewer than [2^64] enqueue calls. *)
Theorem call_sequences_refine_fifo :
  forall (T : Type) (dflt : T) (moved : T -> T) (Capacity : Z) (cs : list (call T)),
    valid_capacity Capacity ->
    (2 <= Capacity ->
     forall fuel, exists q',
       run_calls (mpmc_enq dflt Capacity (S fuel)) (mpmc_deq dflt moved Capacity (S fuel)) cs
         (MPMC.new_queue dflt Capacity) =
       Some (fst (fifo_spec_run Capacity cs []), q')) /\
    (enqueue_calls cs < modulus ->
     exists q',
       run_calls (ring_enq Capacity) (ring_deq dflt moved Capacity) cs
         (Ring.new_buffer dflt Capacity) =
       Some (fst (fifo_spec_run Capacity cs []), q')).
Proof.
  intros T dflt moved Capacity cs Hcap. split.
  - intros H2 fuel.
    destruct (mpmc_run_calls_rep dflt moved Capacity Hcap fuel cs H2)
      as (q' & _ & _ & Hrun & _).
    exists q'. exact Hrun.
  - intros Hlt.
    destruct (ring_run_calls_rep dflt moved Capacity Hcap cs Hlt)
      as (q' & _ & _ & Hrun & _).
    exists q'. exact Hrun.
Qed.

Lemma call_sequences_refine_fifo_witness :
  (forall fuel, exists q',
     run_calls (mpmc_enq 0 2 (S fuel)) (mpmc_deq 0 (fun x => x) 2 (S fuel))
       [Enqueue 1; Enqueue 2; Enqueue 3; Dequeue; Enqueue 4; Dequeue; Dequeue; Dequeue]
       (MPMC.new_queue 0 2) =
     Some ([Enqueued true; Enqueued true; Enqueued false; Dequeued (Some 1);
            Enqueued true; Dequeued (Some 2); Dequeued (Some 4); Dequeued None], q')) /\
  (exists q',
     run_calls (ring_enq 2) (ring_deq 0 (fun x => x) 2)
       [Enqueue 1; Enqueue 2; Enqueue 3; Dequeue; Enqueue 4; Dequeue; Dequeue; Dequeue]
       (Ring.new_buffer 0 2) =
     Some ([Enqueued true; Enqueued true; Enqueued false; Dequeued (Some 1);
            Enqueued true; Dequeued (Some 2); Dequeued (Some 4); Dequeued None], q')).
Proof.
  destruct (call_sequences_refine_fifo Z 0 (fun x => x) 2
              [Enqueue 1; Enqueue 2; Enqueue 3; Dequeue; Enqueue 4; Dequeue; Dequeue; Dequeue]
              ltac:(repeat split)) as [Hmpmc Hring].
  split.
  - apply Hmpmc. lia.
  - apply Hring. reflexivity.
Defined.

(** X5.  After any sequence of calls on a newly constructed queue with
    fewer than [2^64] enqueue calls, [size()] is the number of
    elements a bounded FIFO holds after the same calls, [empty()] is
    true exactly when that number is 0 and, for the ring buffer,
    [full()] exactly when it is [Capacity].  Holds for the ring
    buffer and for the sequenced-slot queue of at least two slots. *)
Theorem observers_count_elements :
  forall (T : Type) (dflt : T) (moved : T -> T) (Capacity : Z) (cs : list (call T)),
    valid_capacity Capacity ->
    enqueue_calls cs < modulus ->
    (forall out q,
       run_calls (ring_enq Capacity) (ring_deq dflt moved Capacity) cs
         (Ring.new_buffer dflt Capacity) = Some (out, q) ->
       Ring.size q = Z.of_nat (length (snd (fifo_spec_run Capacity cs []))) /\
       Ring.empty q = (Z.of_nat (length (snd (fifo_spec_run Capacity cs []))) =? 0) /\
       Ring.full Capacity q =
         (Z.of_nat (length (snd (fifo_spec_run Capacity cs []))) =? Capacity)) /\
    (2 <= Capacity ->
     forall fuel out q,
       run_calls (mpmc_enq dflt Capacity (S fuel)) (mpmc_deq dflt moved Capacity (S fuel)) cs
         (MPMC.new_queue dflt Capacity) = Some (out, q) ->
       MPMC.size q = Z.of_nat (length (snd (fifo_spec_run Capacity cs []))) /\
       MPMC.empty q = (Z.of_nat (length (snd (fifo_spec_run Capacity cs []))) =? 0)).
Proof.
  intros T dflt moved Capacity cs Hcap Hlt. split.
  - intros out q Hrun.
    destruct (ring_run_calls_rep dflt moved Capacity Hcap cs Hlt)
      as (q' & E' & D' & Hrun' & R & _).
    rewrite Hrun' in Hrun. injection Hrun as _ <-.
    apply (ring_observers_rep dflt Capacity Hcap E' D' _ q' R).
  - intros H2 fuel out q Hrun.
    destruct (mpmc_run_calls_rep dflt moved Capacity Hcap fuel cs H2)
      as (q' & E' & D' & Hrun' & R & HE).
    rewrite Hrun' in Hrun. injection Hrun as _ <-.
    apply (mpmc_observers_rep dflt Capacity E' D' _ q' R). lia.
Qed.

Lemma observers_count_elements_witness :
  (forall out q,
     run_calls (ring_enq 4) (ring_deq 0 (fun x => x) 4)
       [Enqueue 0; Enqueue 1; Enqueue 2; Enqueue 3; Enqueue 4; Dequeue; Dequeue; Dequeue]
       (Ring.new_buffer 0 4) = Some (out, q) ->
     Ring.size q = 1 /\ Ring.empty q = false /\ Ring.full 4 q = false) /\
  (forall fuel out q,
     run_calls (mpmc_enq 0 4 (S fuel)) (mpmc_deq 0 (fun x => x) 4 (S fuel))
       [Enqueue 0; Enqueue 1; Enqueue 2; Enqueue 3; Enqueue 4; Dequeue; Dequeue; Dequeue]
       (MPMC.new_queue 0 4) = Some (out, q) ->
     MPMC.size q = 1 /\ MPMC.empty q = false).
Proof.
  destruct (observers_count_elements Z 0 (fun x => x) 4
              [Enqueue 0; Enqueue 1; Enqueue 2; Enqueue 3; Enqueue 4; Dequeue; Dequeue; Dequeue]
              ltac:(repeat split) ltac:(reflexivity)) as [Hring Hmpmc].
  split.
  - exact Hring.
  - apply Hmpmc. lia.
Defined.


(** ** Observers and the calls they guard *)

(** X6.  The observers predict the next call.  In every reachable
    state of the ring buffer, [full()] is true exactly when
    [try_enqueue] would return [false], and, as long as fewer than
    [2^64] enqueues have succeeded, [empty()] is true exactly when
    [try_dequeue] would return nothing.  In every reachable state of a
    sequenced-slot queue of at least two slots, [dequeue] returns, and
    [empty()] is true exactly when it returns [false]. *)
Theorem observers_predict_calls :
  forall (T : Type) (dflt : T) (moved : T -> T) (Capacity : Z),
    valid_capacity Capacity ->
    (forall E D q v,
       ring_reach dflt moved Capacity E D q ->
       (Ring.full Capacity q = true <-> fst (Ring.try_enqueue Capacity q v) = false) /\
       (E < modulus ->
        (Ring.empty q = true <->
         fst (Ring.try_dequeue_opt dflt moved Capacity q) = None))) /\
    (2 <= Capacity ->
     forall E D q fuel r,
       mpmc_reach dflt moved Capacity E D q ->
       exists b r' q',
         MPMC.dequeue dflt moved Capacity (S fuel) q r = Some (b, r', q') /\
         (MPMC.empty q = true <-> b = false)).
Proof.
  intros T dflt moved Capacity Hcap. split.
  - intros E D q v Hreach.
    destruct (ring_reach_rep dflt moved Capacity Hcap E D q Hreach) as [xs R].
    destruct (ring_observers_rep dflt Capacity Hcap E D xs q R) as (_ & Hempty & Hfull).
    pose proof (ring_rep_range _ _ _ _ _ _ R) as Hrange.
    pose proof (rrep_length _ _ _ _ _ _ R) as Hlen.
    rewrite Hempty, Hfull. split.
    + destruct (Z.eq_dec (E - D) Capacity) as [Hf|Hr].
      * rewrite (ring_try_enqueue_full dflt Capacity Hcap E D xs q v R Hf). simpl.
        split; [reflexivity|]. intros _. apply Z.eqb_eq. lia.
      * destruct (ring_try_enqueue_room dflt Capacity Hcap E D xs q v R ltac:(lia))
          as (q' & -> & _).
        simpl. split; [|discriminate]. intros H. apply Z.eqb_eq in H. lia.
    + intros HE. destruct xs as [|x xs].
      * rewrite (ring_try_dequeue_none dflt moved Capacity E D q R). simpl.
        split; reflexivity.
      * destruct (ring_try_dequeue_some dflt moved Capacity Hcap E D x xs q R HE)
          as (q' & -> & _).
        simpl. split; discriminate.
  - intros H2 E D q fuel r Hreach.
    destruct (mpmc_dequeue_outcome dflt moved Capacity Hcap E D q fuel r H2 Hreach)
      as (b & r' & q' & Hrun & Hb).
    exists b, r', q'. split; [exact Hrun|].
    unfold MPMC.empty. rewrite Z.eqb_eq. symmetry. exact Hb.
Qed.

Lemma observers_predict_calls_witness :
  (Ring.full 4 (Ring.new_buffer 0 4) = true <->
   fst (Ring.try_enqueue 4 (Ring.new_buffer 0 4) 10) = false) /\
  (Ring.empty (Ring.new_buffer 0 4) = true <->
   fst (Ring.try_dequeue_opt 0 (fun x => x) 4 (Ring.new_buffer 0 4)) = None) /\
  (exists b r' q',
     MPMC.dequeue 0 (fun x => x) 4 1 (MPMC.new_queue 0 4) 7 = Some (b, r', q') /\
     (MPMC.empty (MPMC.new_queue 0 4) = true <-> b = false)).
Proof.
  destruct (observers_predict_calls Z 0 (fun x => x) 4 ltac:(repeat split))
    as [Hring Hmpmc].
  destruct (Hring 0 0 (Ring.new_buffer 0 4) 10 ltac:(constructor)) as [Hfull Hempty].
  split; [exact Hfull|]. split; [apply Hempty; reflexivity|].
  apply (Hmpmc ltac:(lia) 0 0 (MPMC.new_queue 0 4) 0%nat 7). constructor.
Defined.

(** ** The clearing loop *)

(** X7.  [while (queue.dequeue(temp)) {}], run after any sequence of
    calls on a newly constructed queue, returns after one call more
    than there are elements held, leaves the queue empty, and leaves
    in [temp] the newest element ([temp] is untouched when the queue
    was empty already).  Holds for the sequenced-slot queue of at
    least two slots and, when the sequence has fewer than [2^64]
    enqueue calls, for the ring buffer. *)
Theorem clear_loop_empties_queue :
  forall (T : Type) (dflt : T) (moved : T -> T) (Capacity : Z)
         (cs : list (call T)) (temp : T) (extra : nat),
    valid_capacity Capacity ->
    (2 <= Capacity ->
     forall fuel out q,
       run_calls (mpmc_enq dflt Capacity (S fuel)) (mpmc_deq dflt moved Capacity (S fuel)) cs
         (MPMC.new_queue dflt Capacity) = Some (out, q) ->
       exists q',
         clear_loop (mpmc_deq_ref dflt moved Capacity (S fuel))
           (S (length (snd (fifo_spec_run Capacity cs []))) + extra) q temp =
         Some (List.last (snd (fifo_spec_run Capacity cs [])) temp, q') /\
         MPMC.empty q' = true /\
         MPMC.dequeue dflt moved Capacity (S fuel) q' temp = Some (false, temp, q')) /\
    (enqueue_calls cs < modulus ->
     forall out q,
       run_calls (ring_enq Capacity) (ring_deq dflt moved Capacity) cs
         (Ring.new_buffer dflt Capacity) = Some (out, q) ->
       exists q',
         clear_loop (ring_deq_ref dflt moved Capacity)
           (S (length (snd (fifo_spec_run Capacity cs []))) + extra) q temp =
         Some (List.last (snd (fifo_spec_run Capacity cs [])) temp, q') /\
         Ring.empty q' = true /\ Ring.size q' = 0).
Proof.
  intros T dflt moved Capacity cs temp extra Hcap. split.
  - intros H2 fuel out q Hrun.
    destruct (mpmc_run_calls_rep dflt moved Capacity Hcap fuel cs H2)
      as (q0 & E' & D' & Hrun' & R & _).
    rewrite Hrun' in Hrun. injection Hrun as _ <-.
    destruct (clear_loop_empties (mpmc_deq_ref dflt moved Capacity (S fuel))
                (mpmc_rep dflt Capacity) always
                (mrep_length dflt Capacity)
                (fun E D x xs q r R _ =>
                   mpmc_deq_ref_some dflt moved Capacity Hcap E D x xs q fuel r R)
                (fun E D q r => mpmc_dequeue_none dflt moved Capacity Hcap E D q fuel r)
                _ E' D' q0 temp extra R I) as (q' & Hclear & R').
    exists q'. split; [exact Hclear|]. split.
    + unfold MPMC.empty.
      rewrite (mrep_head _ _ _ _ _ _ R'), (mrep_tail _ _ _ _ _ _ R'). apply Z.eqb_refl.
    + apply (mpmc_dequeue_none dflt moved Capacity Hcap E' E' q' fuel temp R').
  - intros Hlt out q Hrun.
    destruct (ring_run_calls_rep dflt moved Capacity Hcap cs Hlt)
      as (q0 & E' & D' & Hrun' & R & HE).
    rewrite Hrun' in Hrun. injection Hrun as _ <-.
    destruct (clear_loop_empties (ring_deq_ref dflt moved Capacity)
                (ring_rep dflt Capacity) unwrapped
                (rrep_length dflt Capacity)
                (ring_deq_ref_some dflt moved Capacity Hcap)
                (ring_deq_ref_none dflt moved Capacity)
                _ E' D' q0 temp extra R) as (q' & Hclear & R').
    { unfold unwrapped. lia. }
    exists q'. split; [exact Hclear|].
    destruct (ring_observers_rep dflt Capacity Hcap E' E' [] q' R') as (Hs & He & _).
    split; [exact He|exact Hs].
Qed.

Lemma clear_loop_empties_queue_witness :
  (forall fuel out q,
     run_calls (mpmc_enq 0 4 (S fuel)) (mpmc_deq 0 (fun x => x) 4 (S fuel))
       [Enqueue 0; Enqueue 1; Enqueue 2; Enqueue 3; Enqueue 4; Dequeue; Dequeue; Dequeue]
       (MPMC.new_queue 0 4) = Some (out, q) ->
     exists q',
       clear_loop (mpmc_deq_ref 0 (fun x => x) 4 (S fuel)) (2 + 0) q 99 = Some (3, q') /\
       MPMC.empty q' = true /\
       MPMC.dequeue 0 (fun x => x) 4 (S fuel) q' 99 = Some (false, 99, q')) /\
  (forall out q,
     run_calls (ring_enq 4) (ring_deq 0 (fun x => x) 4)
       [Enqueue 0; Enqueue 1; Enqueue 2; Enqueue 3; Enqueue 4; Dequeue; Dequeue; Dequeue]
       (Ring.new_buffer 0 4) = Some (out, q) ->
     exists q',
       clear_loop (ring_deq_ref 0 (fun x => x) 4) (2 + 0) q 99 = Some (3, q') /\
       Ring.empty q' = true /\ Ring.size q' = 0).
Proof.
  destruct (clear_loop_empties_queue Z 0 (fun x => x) 4
              [Enqueue 0; Enqueue 1; Enqueue 2; Enqueue 3; Enqueue 4; Dequeue; Dequeue; Dequeue]
              99 0%nat ltac:(repeat split)) as [Hmpmc Hring].
  split.
  - apply Hmpmc. lia.
  - apply Hring. reflexivity.
Defined.

(** ** Array bounds *)





(** ** The destructor loop, pass by pass *)

Lemma wrap_sub_cases h t :
  0 <= h < modulus -> 0 <= t < modulus ->
  wrap (h - t) = if t <=? h then h - t else h - t + modulus.
Proof.
  intros Hh Ht. unfold wrap. destruct (t <=? h) eqn:E.
  - apply Z.mod_small. lia.
  - rewrite <- (Z.mod_add (h - t) 1 modulus) by discriminate.
    apply Z.mod_small. lia.
Qed.

Lemma wrap_add_cases h k :
  0 <= h < modulus -> 0 <= k < modulus ->
  wrap (h + k) = if h + k <? modulus then h + k else h + k - modulus.
Proof.
  intros Hh Hk. unfold wrap. destruct (h + k <? modulus) eqn:E.
  - apply Z.mod_small. lia.
  - rewrite <- (Z.mod_add (h + k) (-1) modulus) by discriminate.
    apply Z.mod_small. lia.
Qed.

Lemma ring_destructor_until_tail (Capacity : Z) (fuel : nat) head tail :
  0 <= head < modulus -> 0 <= tail < modulus ->
  Z.of_nat fuel <= wrap (tail - head) ->
  Ring.destructor_loop Capacity fuel head tail =
    (map (fun k => Z.land (wrap (head + k)) (Capacity - 1)) (seqZ 0 (Z.of_nat fuel)),
     Z.of_nat fuel =? wrap (tail - head)).
Proof.
  intros Hh Ht Hfuel. pose proof (wrap_range (tail - head)) as Hn.
  rewrite ring_destructor_passes.
  - f_equal. rewrite wrap_add_cases by lia.
    rewrite wrap_sub_cases in * by lia.
    destruct (head <=? tail) eqn:E1, (head + Z.of_nat fuel <? modulus) eqn:E2;
      destruct (_ =? tail) eqn:E3, (Z.of_nat fuel =? _) eqn:E4; try reflexivity; lia.
  - intros k Hk. rewrite wrap_add_cases by lia.
    rewrite wrap_sub_cases in * by lia.
    destruct (head <=? tail) eqn:E1, (head + k <? modulus) eqn:E2; lia.
  - apply wrap_small. lia.
Qed.

(** X9.  The destructor loop of the ring buffer in every reachable
    state: on an empty buffer it is left at once and destroys
    nothing; on a buffer that holds [size()] elements it makes
    [2^64 - size()] passes, the pass number [k] destroying cell
    [(head + k) & mask_], and is not left before. *)
Theorem ring_destructor_pass_count :
  forall (T : Type) (dflt : T) (moved : T -> T) (Capacity : Z) E D (q : @Ring.RingBuffer T),
    valid_capacity Capacity ->
    ring_reach dflt moved Capacity E D q ->
    (Ring.size q = 0 -> forall fuel, Ring.destructor Capacity fuel q = ([], true)) /\
    (0 < Ring.size q ->
     forall fuel, Z.of_nat fuel <= modulus - Ring.size q ->
       Ring.destructor Capacity fuel q =
         (map (fun k => Z.land (wrap (Ring.head_ q + k)) (Ring.mask_ Capacity))
              (seqZ 0 (Z.of_nat fuel)),
          Z.of_nat fuel =? modulus - Ring.size q)).
Proof.
  intros T dflt moved Capacity E D q Hcap Hreach.
  destruct (ring_reach_rep dflt moved Capacity Hcap E D q Hreach) as [xs R].
  pose proof (wrap_range E) as HE. pose proof (wrap_range D) as HD.
  unfold Ring.destructor, Ring.size, Ring.mask_.
  rewrite (rrep_head _ _ _ _ _ _ R), (rrep_tail _ _ _ _ _ _ R).
  rewrite (wrap_sub_cases (wrap E) (wrap D)) by assumption.
  split.
  - intros Hsize fuel.
    assert (wrap E = wrap D) as -> by (destruct (wrap D <=? wrap E); lia).
    destruct fuel as [|fuel]; simpl; rewrite Z.eqb_refl; reflexivity.
  - intros Hsize fuel Hfuel.
    rewrite ring_destructor_until_tail by
      (rewrite ?wrap_sub_cases by assumption;
       destruct (wrap D <=? wrap E) eqn:E1, (wrap E <=? wrap D) eqn:E2; lia).
    f_equal. rewrite wrap_sub_cases by assumption.
    destruct (wrap D <=? wrap E) eqn:E1, (wrap E <=? wrap D) eqn:E2;
      destruct (_ =? _) eqn:E3, (Z.of_nat fuel =? _) eqn:E4; try reflexivity; lia.
Qed.

Lemma ring_destructor_pass_count_witness :
  (Ring.size (Ring.new_buffer 0 4) = 0 ->
   forall fuel, Ring.destructor 4 fuel (Ring.new_buffer 0 4) = ([], true)) /\
  (0 < Ring.size (snd (Ring.try_enqueue 4 (Ring.new_buffer 0 4) 7)) ->
   forall fuel,
     Z.of_nat fuel <= modulus - Ring.size (snd (Ring.try_enqueue 4 (Ring.new_buffer 0 4) 7)) ->
     Ring.destructor 4 fuel (snd (Ring.try_enqueue 4 (Ring.new_buffer 0 4) 7)) =
       (map (fun k =>
               Z.land (wrap (Ring.head_ (snd (Ring.try_enqueue 4 (Ring.new_buffer 0 4) 7)) + k))
                 (Ring.mask_ 4))
            (seqZ 0 (Z.of_nat fuel)),
        Z.of_nat fuel =? modulus - Ring.size (snd (Ring.try_enqueue 4 (Ring.new_buffer 0 4) 7)))).
Proof.
  split.
  - apply (ring_destructor_pass_count Z 0 (fun x => x) 4 0 0 (Ring.new_buffer 0 4)
             ltac:(repeat split) ltac:(constructor)).
  - apply (ring_destructor_pass_count Z 0 (fun x => x) 4 1 0
             (snd (Ring.try_enqueue 4 (Ring.new_buffer 0 4) 7)) ltac:(repeat split)).
    apply (rreach_enqueue 0 (fun x => x) 4 0 0 (Ring.new_buffer 0 4) 7 true);
      [constructor|reflexivity].
Defined.

(** ** The single-threaded timing loops of the ring buffer demo *)

Lemma last_map_seqZ {A} (f : Z -> A) i k d :
  0 < k -> List.last (map f (seqZ i k)) d = f (i + k - 1).
Proof.
  intros Hk. replace k with ((k - 1) + 1) at 1 by lia.
  rewrite seqZ_app by lia. rewrite map_app.
  change (seqZ (i + (k - 1)) 1) with [i + (k - 1)]. simpl map.
  rewrite List.last_last. f_equal. lia.
Qed.

Section TimingLoops.
Variable Capacity : Z.
Hypothesis Hcap : valid_capacity Capacity.

Abbreviation rrepZ := (ring_rep (T := Z) 0 Capacity).

(** The first loop enqueues [static_cast<int>(i)] for consecutive [i]
    until the count is used up or the buffer is full. *)
Lemma enqueue_phase_rep (steps : nat) : forall i q E D xs,
  rrepZ E D xs q -> 0 <= i -> i + Z.of_nat steps < modulus ->
  rrepZ (E + Z.min (Z.of_nat steps) (Capacity - (E - D))) D
    (xs ++ map static_cast_int (seqZ i (Z.min (Z.of_nat steps) (Capacity - (E - D)))))
    (enqueue_phase Capacity steps i q).
Proof.
  induction steps as [|steps IH]; intros i q E D xs R Hi Hlt;
    pose proof (ring_rep_range _ _ _ _ _ _ R) as Hrange.
  - simpl enqueue_phase. replace (Z.min (Z.of_nat 0) (Capacity - (E - D))) with 0 by lia.
    rewrite seqZ_nil by lia. simpl. rewrite Z.add_0_r, app_nil_r. exact R.
  - cbn [enqueue_phase].
    destruct (ring_observers_rep 0 Capacity Hcap E D xs q R) as (_ & _ & ->).
    pose proof (rrep_length _ _ _ _ _ _ R) as Hlen.
    destruct (Z.of_nat (length xs) =? Capacity) eqn:Hfull; cbn [negb].
    + replace (Z.min (Z.of_nat (S steps)) (Capacity - (E - D))) with 0 by lia.
      rewrite seqZ_nil by lia. simpl. rewrite Z.add_0_r, app_nil_r. exact R.
    + destruct (ring_try_enqueue_room 0 Capacity Hcap E D xs q (static_cast_int i) R
                  ltac:(lia)) as (q1 & -> & R1).
      cbn [snd]. rewrite (wrap_small (i + 1)) by lia.
      pose proof (IH (i + 1) q1 (E + 1) D _ R1 ltac:(lia) ltac:(lia)) as R2.
      replace (Z.min (Z.of_nat (S steps)) (Capacity - (E - D)))
        with (Z.min (Z.of_nat steps) (Capacity - (E + 1 - D)) + 1) by lia.
      set (k := Z.min (Z.of_nat steps) (Capacity - (E + 1 - D))) in *.
      rewrite (seqZ_cons i (k + 1)) by lia.
      replace (Z.pred (k + 1)) with k by lia. replace (Z.succ i) with (i + 1) by lia.
      cbn [map]. rewrite <- app_assoc in R2. cbn [app] in R2.
      replace (E + (k + 1)) with (E + 1 + k) by lia. exact R2.
Qed.

(** The second loop dequeues until the count is used up or a call
    returns [false]. *)
Lemma dequeue_phase_rep (steps : nat) : forall q E D xs value,
  rrepZ E D xs q -> E < modulus ->
  exists q',
    dequeue_phase Capacity steps q value =
      (List.last (take steps xs) value, q') /\
    rrepZ E (D + Z.of_nat (Nat.min steps (length xs))) (drop steps xs) q'.
Proof.
  induction steps as [|steps IH]; intros q E D xs value R HE.
  - exists q. simpl. rewrite drop_0, Z.add_0_r. split; [reflexivity|exact R].
  - cbn [dequeue_phase]. rewrite ring_try_dequeue_forms.
    destruct xs as [|x xs].
    + rewrite (ring_try_dequeue_none 0 (fun x => x) Capacity E D q R).
      exists q. simpl. rewrite Z.add_0_r. split; [reflexivity|exact R].
    + destruct (ring_try_dequeue_some 0 (fun x => x) Capacity Hcap E D x xs q R HE)
        as (q1 & -> & R1).
      destruct (IH q1 E (D + 1) xs x R1 HE) as (q2 & -> & R2).
      exists q2. cbn [take drop length Nat.min]. rewrite last_cons_default.
      split; [reflexivity|].
      replace (D + Z.of_nat (S (Nat.min steps (length xs))))
        with (D + 1 + Z.of_nat (Nat.min steps (length xs))) by lia.
      exact R2.
Qed.
End TimingLoops.

(** X10.  [test_single_threaded] of the ring buffer demo, for any
    capacity and any [num_operations] below [2^64]: the first loop
    stops after [min(num_operations, Capacity)] enqueues, none of
    which fails, and leaves the buffer full exactly when
    [num_operations >= Capacity]; the second loop then dequeues every
    element, leaving the buffer empty, and [value] ends as the last
    value enqueued ([value] is untouched when [num_operations] is 0). *)
Theorem single_threaded_demo_fills_then_drains :
  forall (Capacity : Z) (num_operations : nat) (value : Z),
    valid_capacity Capacity ->
    Z.of_nat num_operations < modulus ->
    Ring.size (enqueue_phase Capacity num_operations 0 (Ring.new_buffer 0 Capacity)) =
      Z.min (Z.of_nat num_operations) Capacity /\
    Ring.full Capacity (enqueue_phase Capacity num_operations 0 (Ring.new_buffer 0 Capacity)) =
      (Capacity <=? Z.of_nat num_operations) /\
    exists buffer,
      test_single_threaded Capacity num_operations value =
        (if Z.of_nat num_operations =? 0 then value
         else static_cast_int (Z.min (Z.of_nat num_operations) Capacity - 1),
         buffer) /\
      Ring.empty buffer = true /\
      Ring.head_ buffer = Z.min (Z.of_nat num_operations) Capacity /\
      Ring.tail_ buffer = Z.min (Z.of_nat num_operations) Capacity.
Proof.
  intros Capacity n value Hcap Hn.
  pose proof (capacity_pos _ Hcap) as Hpos.
  pose proof (capacity_lt_modulus _ Hcap) as Hlt.
  pose proof (enqueue_phase_rep Capacity Hcap n 0 (Ring.new_buffer 0 Capacity) 0 0 []
                (ring_rep_new 0 Capacity Hcap) ltac:(lia) ltac:(lia)) as R1.
  replace (Capacity - (0 - 0)) with Capacity in R1 by lia.
  set (k := Z.min (Z.of_nat n) Capacity) in *. simpl in R1.
  set (q1 := enqueue_phase Capacity n 0 (Ring.new_buffer 0 Capacity)) in *.
  assert (Hlen : Z.of_nat (length (map static_cast_int (seqZ 0 k))) = k).
  { rewrite length_map, length_seqZ. lia. }
  destruct (ring_observers_rep 0 Capacity Hcap _ _ _ q1 R1) as (Hsize & _ & Hfull).
  rewrite Hlen in *.
  split; [exact Hsize|]. split.
  { rewrite Hfull. destruct (k =? Capacity) eqn:E1, (Capacity <=? Z.of_nat n) eqn:E2;
      try reflexivity; lia. }
  destruct (dequeue_phase_rep Capacity Hcap n q1 k 0 _ value R1 ltac:(lia))
    as (q2 & Hrun & R2).
  exists q2. unfold test_single_threaded. fold q1. rewrite Hrun.
  assert (Hall : (length (map static_cast_int (seqZ 0 k)) <= n)%nat) by lia.
  rewrite take_ge in * by exact Hall. rewrite drop_ge in R2 by exact Hall.
  replace (Z.of_nat (Nat.min n (length (map static_cast_int (seqZ 0 k))))) with k in R2 by lia.
  split.
  - f_equal. destruct (Z.of_nat n =? 0) eqn:E0.
    + assert (k = 0) as -> by lia. reflexivity.
    + rewrite last_map_seqZ by lia. f_equal.
  - destruct (ring_observers_rep 0 Capacity Hcap _ _ _ q2 R2) as (_ & He & _).
    split; [exact He|].
    rewrite (rrep_head _ _ _ _ _ _ R2), (rrep_tail _ _ _ _ _ _ R2).
    rewrite Z.add_0_l, wrap_small by lia. split; reflexivity.
Qed.

Lemma single_threaded_demo_fills_then_drains_witness :
  Ring.size (enqueue_phase 4 10 0 (Ring.new_buffer 0 4)) = Z.min (Z.of_nat 10) 4 /\
  Ring.full 4 (enqueue_phase 4 10 0 (Ring.new_buffer 0 4)) = (4 <=? Z.of_nat 10) /\
  exists buffer,
    test_single_threaded 4 10 99 =
      (if Z.of_nat 10 =? 0 then 99 else static_cast_int (Z.min (Z.of_nat 10) 4 - 1), buffer) /\
    Ring.empty buffer = true /\
    Ring.head_ buffer = Z.min (Z.of_nat 10) 4 /\
    Ring.tail_ buffer = Z.min (Z.of_nat 10) 4.
Proof.
  apply (single_threaded_demo_fills_then_drains 4 10 99).
  - repeat split.
  - reflexivity.
Defined.


(** ** Cells outside the live window *)

Section SpentCells.
Context {T : Type}.
Variable dflt : T.
Variable moved : T -> T.
Variable Capacity : Z.
Hypothesis Hcap : valid_capacity Capacity.

Abbreviation mpmc_cell q j :=
  (MPMC.element (MPMC.slot_at dflt (MPMC.slots_ q) (j mod Capacity))).
Abbreviation ring_cell q j :=
  (Ring.buffer_at dflt (Ring.buffer_ q) (j mod Capacity)).








End SpentCells.


